(** * ylt::util::map_sharded_t — a sharded, lock-partitioned map

    Shallow embedding of [include/ylt/util/map_sharded.hpp] and the
    properties of its two classes, [internal::map_lock_t] (one shard) and
    [map_sharded_t] (the shard array with its element counter).

    Every public member function of a shard is one critical section under
    the shard's mutex, so a quiescent execution is a sequence of such
    sections; the embedding is that sequential semantics, one function per
    member function, with the object state passed explicitly. *)

From Stdlib Require Import ZArith Lia.
From stdpp Require Import base tactics numbers option list.

(** ** Machine integers

    [size_t] is a 64-bit unsigned integer and [int] a 32-bit signed one;
    both are carried by [Z] with the conversions written out. *)

Module Int.
Definition size_t_modulus : Z := 2 ^ 64.
Definition int_max : Z := 2 ^ 31 - 1.

(** conversion to [size_t]: reduction modulo 2^64 *)
Definition to_size_t (z : Z) : Z := z mod size_t_modulus.

(** conversion to [int]: the unique value congruent modulo 2^32 in
    [-2^31, 2^31) *)
Definition to_int (z : Z) : Z := (z + 2 ^ 31) mod 2 ^ 32 - 2 ^ 31.

(** [std::atomic<size_t>::fetch_add] and [fetch_sub], as the new value *)
Definition fetch_add (cur arg : Z) : Z := to_size_t (cur + arg).
Definition fetch_sub (cur arg : Z) : Z := to_size_t (cur - arg).

(** [total += result] for [int total] and [size_t result]: the sum is
    formed in [size_t] and converted back to [int] *)
Definition int_add_assign (total result : Z) : Z :=
  to_int (to_size_t (to_size_t total + result)).
End Int.

(** ** Outcomes

    A member function either returns or has undefined behaviour
    (dereferencing a past-the-end iterator, a remainder by zero, an index
    outside the vector). *)

Inductive result (A : Type) : Type :=
| Ok (a : A)
| UB.
Arguments Ok {A} a.
Arguments UB {A}.

#[global] Instance result_ret : MRet result := @Ok.
#[global] Instance result_bind : MBind result :=
  λ A B f r, match r with Ok a => f a | UB => UB end.

Definition is_Ok {A} (r : result A) : bool :=
  match r with Ok _ => true | UB => false end.

(** ** The [Map] template parameter

    The single-shard map is a collaborator with the contract of
    [std::unordered_map]: unique keys, [find], [try_emplace],
    [erase(key)], [std::erase_if] and iteration.  It is carried by the
    sequence of its entries in iteration order.  Removal keeps the order
    of the entries that stay.  Where an insertion puts the new entry,
    and whether it reorders the others, the contract leaves open; here
    the new entry goes to the end, and what is stated of an insertion is
    stated up to that order. *)

Module Map.
Section defs.
Context {key : Type} `{!EqDecision key} {mapped_type : Type}.

(** [Map::value_type], that is [std::pair<const key_type, mapped_type>] *)
Definition value_type : Type := key * mapped_type.
Definition t : Type := list value_type.

Definition has_key (k : key) (e : value_type) : bool := bool_decide (e.1 = k).

(** [find]: the entry the iterator points to, [None] for [end()] *)
Definition find (k : key) (m : t) : option value_type :=
  List.find (has_key k) m.

(** [try_emplace]: the map afterwards, the entry at the returned
    iterator and the inserted flag *)
Definition try_emplace (k : key) (v : mapped_type) (m : t)
  : t * (value_type * bool) :=
  match find k m with
  | Some e => (m, (e, false))
  | None => (m ++ [(k, v)], ((k, v), true))
  end.

(** the number of elements a removal took out: old size minus new size *)
Definition removed (old new : t) : Z :=
  Z.of_nat (length old - length new).

(** [erase(key)] *)
Definition erase (k : key) (m : t) : t * Z :=
  let m' := List.filter (λ e, negb (has_key k e)) m in
  (m', removed m m').

(** [std::erase_if(map, pred)] *)
Definition erase_if (pred : value_type → bool) (m : t) : t * Z :=
  let m' := List.filter (λ e, negb (pred e)) m in
  (m', removed m m').

Definition keys (m : t) : list key := m.*1.
End defs.
Arguments value_type : clear implicits.
Arguments t : clear implicits.
End Map.

(** ** Predicate objects

    [erase_if] and [erase_one] take any callable by forwarding reference
    and hand it on with [std::forward], once for every shard, and
    [std::erase_if] takes its predicate by value.  An argument passed as
    an lvalue is copied into that parameter and stays as it is; an
    argument passed as an rvalue is moved into it, and what the caller's
    object is afterwards is its moved-from state.  A predicate object is
    carried by how it was passed and by what its call operator answers
    once the object has been moved from [n] times. *)

Inductive value_category : Type :=
| lvalue
| rvalue.

Record predicate (key mapped_type : Type) : Type := Predicate {
  passed_as : value_category;
  test : nat → Map.value_type key mapped_type → bool
}.
Arguments Predicate {key mapped_type} passed_as test.
Arguments passed_as {key mapped_type} p.
Arguments test {key mapped_type} p n e.

(** [std::forward<Func>(op)] into a by-value parameter: the number of
    times the object has been moved from afterwards *)
Definition forwarded {key mapped_type} (op : predicate key mapped_type)
    (moves : nat) : nat :=
  match passed_as op with
  | lvalue => moves
  | rvalue => S moves
  end.

(** a temporary lambda that captures nothing a move changes *)
Definition captureless {key mapped_type}
    (p : Map.value_type key mapped_type → bool) : predicate key mapped_type :=
  Predicate rvalue (λ _, p).

(** a callable held in a variable and passed by name *)
Definition named {key mapped_type}
    (p : Map.value_type key mapped_type → bool) : predicate key mapped_type :=
  Predicate lvalue (λ _, p).

(** a predicate every shard sees with the same answers: it is passed as
    an lvalue, or a move leaves its answers as they are *)
Definition stable {key mapped_type} (op : predicate key mapped_type) : Prop :=
  passed_as op = lvalue ∨ ∀ n e, test op n e = test op 0 e.

(** ** Visitors

    [for_each] takes any callable.  A visitor whose result can be compared
    with [true] is a boolean-producing visitor; any other is a
    void-producing one.  A visitor reads the entry, may assign the mapped
    value through the reference it is given, and may update what it has
    captured (the state [A]). *)

Inductive visitor (key mapped_type A : Type) : Type :=
| bool_visitor (op : Map.value_type key mapped_type → A → mapped_type * A * bool)
| void_visitor (op : Map.value_type key mapped_type → A → mapped_type * A).
Arguments bool_visitor {key mapped_type A} op.
Arguments void_visitor {key mapped_type A} op.

(** the same through a reference to const: the mapped value is not assigned *)
Inductive const_visitor (key mapped_type A : Type) : Type :=
| bool_const_visitor (op : Map.value_type key mapped_type → A → A * bool)
| void_const_visitor (op : Map.value_type key mapped_type → A → A).
Arguments bool_const_visitor {key mapped_type A} op.
Arguments void_const_visitor {key mapped_type A} op.

Definition as_visitor {key mapped_type A} (vis : const_visitor key mapped_type A)
  : visitor key mapped_type A :=
  match vis with
  | bool_const_visitor op =>
      bool_visitor (λ e a, let '(a', r) := op e a in (e.2, a', r))
  | void_const_visitor op =>
      void_visitor (λ e a, (e.2, op e a))
  end.

(** how a statement ends: falls through, leaves the loop, or leaves the
    function with a value *)
Inductive ctl : Type :=
| Normal
| Break
| Return (b : bool).

(** [s1; s2] *)
Definition seq_ctl (s1 s2 : ctl) : ctl :=
  match s1 with
  | Normal => s2
  | _ => s1
  end.

(** ** internal::map_lock_t *)

Module map_lock_t.
Section defs.
Context {key : Type} `{!EqDecision key} {mapped_type : Type}.
Context (nullptr : mapped_type).

Abbreviation value_type := (Map.value_type key mapped_type).

(** the mutex carries no data; [map_] is the [unique_ptr<Map>], [None]
    while no storage has been allocated *)
Record t : Type := MapLock { map_ : option (Map.t key mapped_type) }.

(** [map_lock_t()] *)
Definition map_lock_t : t := MapLock None.

(** [visit_map]: allocates the storage if there is none, and returns the
    shard together with the map the returned reference denotes *)
Definition visit_map (s : t) : t * Map.t key mapped_type :=
  match map_ s with
  | None => (MapLock (Some []), [])
  | Some m => (s, m)
  end.

(** [find]: the iterator returned by the map's [find] is dereferenced
    without a comparison with [end()] *)
Definition find (key0 : key) (s : t) : result mapped_type :=
  match map_ s with
  | None => Ok nullptr
  | Some m =>
      match Map.find key0 m with
      | Some e => Ok e.2
      | None => UB
      end
  end.

(** [try_emplace], both overloads; [v] is the mapped value the
    arguments construct *)
Definition try_emplace (key0 : key) (v : mapped_type) (s : t)
  : t * (value_type * bool) :=
  let '(_, m) := visit_map s in
  let '(m', res) := Map.try_emplace key0 v m in
  (MapLock (Some m'), res).

Definition erase (key0 : key) (s : t) : t * Z :=
  match map_ s with
  | None => (s, 0%Z)
  | Some m => let '(m', n) := Map.erase key0 m in (MapLock (Some m'), n)
  end.

(** [erase_if]: the shard afterwards, the count, and the number of
    times the argument has been moved from afterwards; without storage
    the function returns before [op] is forwarded *)
Definition erase_if (op : predicate key mapped_type) (moves : nat) (s : t)
  : t * Z * nat :=
  match map_ s with
  | None => (s, 0%Z, moves)
  | Some m =>
      let '(m', n) := Map.erase_if (test op moves) m in
      (MapLock (Some m'), n, forwarded op moves)
  end.

(** the body of the range-for of [for_each] at entry [e]: the entry
    afterwards, the visitor's state, and how the body ends.  For a
    boolean-producing visitor the body is
    [if (!op(e)) { break; return false; }]. *)
Definition for_each_body {A} (vis : visitor key mapped_type A)
    (e : value_type) (a : A) : value_type * A * ctl :=
  match vis with
  | bool_visitor op =>
      let '(v', a', r) := op e a in
      ((e.1, v'), a', if negb r then seq_ctl Break (Return false) else Normal)
  | void_visitor op =>
      let '(v', a') := op e a in
      ((e.1, v'), a', Normal)
  end.

(** the range-for over the entries: the entries afterwards, the
    visitor's state, the entries the visitor was applied to, and how the
    loop was left *)
Fixpoint for_each_loop {A} (vis : visitor key mapped_type A)
    (m : Map.t key mapped_type) (a : A)
  : Map.t key mapped_type * A * list value_type * ctl :=
  match m with
  | [] => ([], a, [], Normal)
  | e :: rest =>
      let '(e', a', c) := for_each_body vis e a in
      match c with
      | Normal =>
          let '(rest', a'', visited, c') := for_each_loop vis rest a' in
          (e' :: rest', a'', e :: visited, c')
      | Break => (e' :: rest, a', [e], Normal)
      | Return b => (e' :: rest, a', [e], Return b)
      end
  end.

(** [for_each]: a [Return] inside the loop is the function's value;
    otherwise control reaches the final [return true] *)
Definition for_each {A} (vis : visitor key mapped_type A) (s : t) (a : A)
  : t * A * list value_type * bool :=
  match map_ s with
  | None => (s, a, [], true)
  | Some m =>
      let '(m', a', visited, c) := for_each_loop vis m a in
      (MapLock (Some m'), a', visited,
       match c with Return b => b | _ => true end)
  end.

(** [for_each] const: the same body over [const auto& e] *)
Definition for_each_const {A} (vis : const_visitor key mapped_type A)
    (s : t) (a : A) : A * list value_type * bool :=
  let '(_, a', visited, b) := for_each (as_visitor vis) s a in
  (a', visited, b).

(** the entries a shard holds *)
Definition entries (s : t) : Map.t key mapped_type :=
  match map_ s with
  | None => []
  | Some m => m
  end.

Definition allocated (s : t) : bool :=
  match map_ s with
  | None => false
  | Some _ => true
  end.

(** the contract of the map: its keys are unique *)
Definition wf (s : t) : Prop := NoDup (Map.keys (entries s)).
End defs.
Arguments t : clear implicits.
End map_lock_t.

(** ** map_sharded_t *)

Module map_sharded_t.
Section defs.
Context {key : Type} `{!EqDecision key} {mapped_type : Type}.
Context (nullptr : mapped_type).
(** [Hash{}(key)], an unsigned integral value *)
Context (Hash : key → N).

Abbreviation value_type := (Map.value_type key mapped_type).
Abbreviation shard := (map_lock_t.t key mapped_type).

Record t : Type := MapSharded {
  shards_ : list shard;
  (** the [std::atomic<std::size_t>], a value in [0, 2^64) *)
  size_ : Z
}.

(** [map_sharded_t(shard_num)]: [shard_num] default-constructed shards; the
    atomic has no initializer and is value-initialized, to zero *)
Definition map_sharded_t (shard_num : nat) : t :=
  MapSharded (replicate shard_num map_lock_t.map_lock_t) 0.

(** the index [hash % shards_.size()] *)
Definition shard_index (m : t) (hash : N) : nat :=
  N.to_nat (hash mod N.of_nat (length (shards_ m))).

(** [get_sharded]: the position and the shard [shards_[hash % shards_.size()]]
    refers to; the remainder by an empty vector's size is undefined *)
Definition get_sharded (m : t) (hash : N) : result (nat * shard) :=
  if decide (length (shards_ m) = 0) then UB
  else
    match shards_ m !! shard_index m hash with
    | Some s => Ok (shard_index m hash, s)
    | None => UB
    end.

(** [try_emplace], both overloads *)
Definition try_emplace (key0 : key) (v : mapped_type) (m : t)
  : result (t * (value_type * bool)) :=
  '(i, s) ← get_sharded m (Hash key0);
  let '(s', res) := map_lock_t.try_emplace key0 v s in
  let size' := if res.2 then Int.fetch_add (size_ m) 1 else size_ m in
  Ok (MapSharded (<[i:=s']> (shards_ m)) size', res).

Definition size (m : t) : Z := size_ m.

Definition find (key0 : key) (m : t) : result mapped_type :=
  '(_, s) ← get_sharded m (Hash key0);
  map_lock_t.find nullptr key0 s.

Definition erase (key0 : key) (m : t) : result (t * Z) :=
  '(i, s) ← get_sharded m (Hash key0);
  let '(s', res) := map_lock_t.erase key0 s in
  let size' := if decide (res ≠ 0%Z) then Int.fetch_sub (size_ m) res else size_ m in
  Ok (MapSharded (<[i:=s']> (shards_ m)) size', res).

(** the loop of [erase_if] over the shards, with the [int total] and the
    counter; [op] is forwarded to every shard, so a shard sees it in the
    state the shards before it left it in *)
Fixpoint erase_if_loop (op : predicate key mapped_type) (moves : nat)
    (ss : list shard) (total sz : Z) : list shard * Z * Z :=
  match ss with
  | [] => ([], total, sz)
  | s :: rest =>
      let '(s', res, moves') := map_lock_t.erase_if op moves s in
      let total' := Int.int_add_assign total res in
      let sz' := Int.fetch_sub sz res in
      let '(rest', total'', sz'') := erase_if_loop op moves' rest total' sz' in
      (s' :: rest', total'', sz'')
  end.

(** [erase_if]: [auto total = 0] is an [int]; it is converted to the
    [size_t] the function returns *)
Definition erase_if (op : predicate key mapped_type) (m : t) : t * Z :=
  let '(ss, total, sz) := erase_if_loop op 0 (shards_ m) 0 (size_ m) in
  (MapSharded ss sz, Int.to_size_t total).

(** the loop of [erase_one]: leaves at the first shard with a non-zero
    result; [op] is forwarded to every shard as in [erase_if] *)
Fixpoint erase_one_loop (op : predicate key mapped_type) (moves : nat)
    (ss : list shard) (total sz : Z) : list shard * Z * Z :=
  match ss with
  | [] => ([], total, sz)
  | s :: rest =>
      let '(s', res, moves') := map_lock_t.erase_if op moves s in
      if decide (res ≠ 0%Z) then
        (s' :: rest, Int.int_add_assign total res, Int.fetch_sub sz res)
      else
        let '(rest', total', sz') := erase_one_loop op moves' rest total sz in
        (s' :: rest', total', sz')
  end.

Definition erase_one (op : predicate key mapped_type) (m : t) : t * Z :=
  let '(ss, total, sz) := erase_one_loop op 0 (shards_ m) 0 (size_ m) in
  (MapSharded ss sz, Int.to_size_t total).

(** the loop of [for_each] over the shards: leaves when a shard's
    [for_each] returns [false] *)
Fixpoint for_each_loop {A} (vis : visitor key mapped_type A)
    (ss : list shard) (a : A) : list shard * A * list value_type :=
  match ss with
  | [] => ([], a, [])
  | s :: rest =>
      let '(s', a', visited, completed) := map_lock_t.for_each vis s a in
      if negb completed then (s' :: rest, a', visited)
      else
        let '(rest', a'', visited') := for_each_loop vis rest a' in
        (s' :: rest', a'', visited ++ visited')
  end.

(** [for_each]: returns nothing; the map afterwards, the visitor's state
    and the entries the visitor was applied to, in order *)
Definition for_each {A} (vis : visitor key mapped_type A) (m : t) (a : A)
  : t * A * list value_type :=
  let '(ss, a', visited) := for_each_loop vis (shards_ m) a in
  (MapSharded ss (size_ m), a', visited).

(** the lambda [copy] hands to each shard's [for_each]: it returns
    nothing and pushes the mapped value when [op] accepts it *)
Definition copy_visitor (op : mapped_type → bool)
  : const_visitor key mapped_type (list mapped_type) :=
  void_const_visitor (λ e ret, if op e.2 then ret ++ [e.2] else ret).

(** [copy(op)]: [reserve] sets the capacity only; every shard's const
    [for_each] runs and its result is not looked at *)
Definition copy (op : mapped_type → bool) (m : t) : list mapped_type :=
  fold_left
    (λ ret s, (map_lock_t.for_each_const (copy_visitor op) s ret).1.1)
    (shards_ m) [].

(** [copy()] *)
Definition copy_all (m : t) : list mapped_type :=
  copy (λ _, true) m.

(** the entries of all shards, in shard order *)
Definition entries_of (ss : list shard) : list value_type :=
  concat (map_lock_t.entries <$> ss).

Definition entries (m : t) : list value_type := entries_of (shards_ m).

Definition live (m : t) : Z := Z.of_nat (length (entries m)).

(** every shard's keys are unique, and the counter is the number of
    entries as a [size_t] *)
Definition inv (m : t) : Prop :=
  Forall map_lock_t.wf (shards_ m) ∧ size_ m = Int.to_size_t (live m).
End defs.
Arguments t : clear implicits.
End map_sharded_t.

(** ** Quiescent executions

    With no call in flight, the history of a shard or of a map is a
    sequence of completed member-function calls. *)

Module history.
Section defs.
Context {key : Type} `{!EqDecision key} {mapped_type : Type}.
Context (nullptr : mapped_type) (Hash : key → N).

Abbreviation value_type := (Map.value_type key mapped_type).
Abbreviation shard := (map_lock_t.t key mapped_type).
Abbreviation sharded := (map_sharded_t.t key mapped_type).

(** *** one shard *)

Inductive shard_op : Type :=
| SFind (k : key)
| STryEmplace (k : key) (v : mapped_type)
| SErase (k : key)
| SEraseIf (op : predicate key mapped_type)
| SForEach (vis : visitor key mapped_type unit).

Definition is_try_emplace (o : shard_op) : bool :=
  match o with
  | STryEmplace _ _ => true
  | _ => false
  end.

Definition shard_step (o : shard_op) (s : shard) : result shard :=
  match o with
  | SFind k => _ ← map_lock_t.find nullptr k s; Ok s
  | STryEmplace k v => Ok (map_lock_t.try_emplace k v s).1
  | SErase k => Ok (map_lock_t.erase k s).1
  | SEraseIf op => Ok (map_lock_t.erase_if op 0 s).1.1
  | SForEach vis => Ok (map_lock_t.for_each vis s ()).1.1.1
  end.

(** a call allocates when the shard has no storage before it and has
    storage after it *)
Definition allocates (s s' : shard) : bool :=
  negb (map_lock_t.allocated s) && map_lock_t.allocated s'.

(** the number of calls of a history that allocate storage *)
Fixpoint allocations (ops : list shard_op) (s : shard) : nat :=
  match ops with
  | [] => 0
  | o :: rest =>
      match shard_step o s with
      | Ok s' => (if allocates s s' then 1 else 0) + allocations rest s'
      | UB => 0
      end
  end.

(** *** the sharded map *)

Inductive op : Type :=
| TryEmplace (k : key) (v : mapped_type)
| Erase (k : key)
| EraseIf (op : predicate key mapped_type)
| EraseOne (op : predicate key mapped_type)
| Find (k : key)
| ForEach (vis : visitor key mapped_type unit)
| Copy (p : mapped_type → bool).

(** what a completed call did to the set of entries: a [try_emplace] with
    its inserted flag, a removal with the number of entries it took out,
    or nothing *)
Inductive event : Type :=
| Inserted (inserted : bool)
| Removed (entries : Z)
| Read.

Definition taken_out (m m' : sharded) : Z :=
  (map_sharded_t.live m - map_sharded_t.live m')%Z.

Definition step (o : op) (m : sharded) : result (sharded * event) :=
  match o with
  | TryEmplace k v =>
      '(m', res) ← map_sharded_t.try_emplace Hash k v m;
      Ok (m', Inserted res.2)
  | Erase k =>
      '(m', _) ← map_sharded_t.erase Hash k m;
      Ok (m', Removed (taken_out m m'))
  | EraseIf p =>
      let m' := (map_sharded_t.erase_if p m).1 in
      Ok (m', Removed (taken_out m m'))
  | EraseOne p =>
      let m' := (map_sharded_t.erase_one p m).1 in
      Ok (m', Removed (taken_out m m'))
  | Find k =>
      _ ← map_sharded_t.find nullptr Hash k m;
      Ok (m, Read)
  | ForEach vis =>
      Ok ((map_sharded_t.for_each vis m ()).1.1, Read)
  | Copy p =>
      let _ := map_sharded_t.copy p m in
      Ok (m, Read)
  end.

Fixpoint run (ops : list op) (m : sharded) : result (sharded * list event) :=
  match ops with
  | [] => Ok (m, [])
  | o :: rest =>
      '(m', ev) ← step o m;
      '(m'', evs) ← run rest m';
      Ok (m'', ev :: evs)
  end.

(** N: the [try_emplace] calls that inserted *)
Fixpoint inserts (evs : list event) : Z :=
  match evs with
  | [] => 0
  | Inserted true :: evs' => 1 + inserts evs'
  | _ :: evs' => inserts evs'
  end.

(** M: the entries the removals took out *)
Fixpoint removals (evs : list event) : Z :=
  match evs with
  | [] => 0
  | Removed n :: evs' => n + removals evs'
  | _ :: evs' => removals evs'
  end.

(** [find] is the one call that can end in undefined behaviour on a map
    with a shard *)
Definition is_find (o : op) : bool :=
  match o with
  | Find _ => true
  | _ => false
  end.

(** the states a map of [shard_num] shards reaches *)
Definition reachable (shard_num : nat) (m : sharded) : Prop :=
  ∃ ops evs, run ops (map_sharded_t.map_sharded_t shard_num) = Ok (m, evs).
End defs.
End history.

(** ** Sample maps

    Keys and mapped values are numbers (a mapped value stands for the
    address its handle holds, zero for the null handle) and the hash of a
    key is the key. *)

Module sample.
Definition Hash (k : N) : N := k.
Definition nullptr : N := 0%N.

Definition emplace (k v : N) (m : map_sharded_t.t N N) : map_sharded_t.t N N :=
  match map_sharded_t.try_emplace Hash k v m with
  | Ok (m', _) => m'
  | UB => m
  end.

(** one shard; key 1 is in it *)
Definition one_shard : map_sharded_t.t N N :=
  emplace 1 10 (map_sharded_t.map_sharded_t 1).

(** two shards with one entry each *)
Definition two_shards : map_sharded_t.t N N :=
  emplace 1 11 (emplace 0 10 (map_sharded_t.map_sharded_t 2)).

(** four shards and the keys 1 to 5; keys 1 and 5 share shard 1 *)
Definition four_shards : map_sharded_t.t N N :=
  emplace 5 50 (emplace 4 40 (emplace 3 30 (emplace 2 20 (emplace 1 10
    (map_sharded_t.map_sharded_t 4))))).

Definition four_shards_history : list (@history.op N N) :=
  [history.TryEmplace 1 10; history.TryEmplace 2 20; history.TryEmplace 3 30;
   history.TryEmplace 4 40; history.TryEmplace 5 50]%N.

(** the scenario of the specification: the five insertions, then
    [erase_one] with the predicate that holds of the mapped value of key 5 *)
Definition value_is_50 (e : Map.value_type N N) : bool := bool_decide (e.2 = 50%N).
Definition scenario_history : list (@history.op N N) :=
  four_shards_history ++ [history.EraseOne (named value_is_50)].
Definition scenario_events : list history.event :=
  repeat (history.Inserted true) 5 ++ [history.Removed 1].
Definition after_scenario : map_sharded_t.t N N :=
  (map_sharded_t.erase_one (named value_is_50) four_shards).1.

(** a boolean-producing visitor that asks to stop at every entry and
    records the keys it is applied to *)
Definition stop_at_once : visitor N N (list N) :=
  bool_visitor (λ e seen, (e.2, seen ++ [e.1], false)).

(** 2^31 entries with the keys 0, 1, ..., 2^31 - 1 *)
Definition many : nat := Z.to_nat 2147483648.
Definition many_entries : Map.t N N :=
  (λ i, (N.of_nat i, 1%N)) <$> seq 0 many.

(** one shard holding them, with the counter at their number *)
Definition crowded : map_sharded_t.t N N :=
  map_sharded_t.MapSharded [map_lock_t.MapLock (Some many_entries)] 2147483648.

(** the four shards of [four_shards] *)
Definition shard0 : map_lock_t.t N N := map_lock_t.MapLock (Some [(4, 40)]%N).
Definition shard1 : map_lock_t.t N N :=
  map_lock_t.MapLock (Some [(1, 10); (5, 50)]%N).
Definition shard2 : map_lock_t.t N N := map_lock_t.MapLock (Some [(2, 20)]%N).
Definition shard3 : map_lock_t.t N N := map_lock_t.MapLock (Some [(3, 30)]%N).

(** [four_shards] after [try_emplace(6, ...)], and after [erase(5)] *)
Definition with_six : map_sharded_t.t N N := emplace 6 60 four_shards.
Definition without_five : map_sharded_t.t N N :=
  map_sharded_t.MapSharded
    [shard0; map_lock_t.MapLock (Some [(1, 10)]%N); shard2; shard3] 4.

(** a void-producing visitor that records the keys it is applied to *)
Definition collect : visitor N N (list N) :=
  void_visitor (λ e seen, (e.2, seen ++ [e.1])).

Definition above_25 (v : N) : bool := (25 <? v)%N.

(** a temporary closure that has captured the handle [h] by value and
    holds of the entries whose handle is [h]; once the closure has been
    moved from, the captured handle is null *)
Definition handle_is (h : N) : predicate N N :=
  Predicate rvalue
    (λ moves e, bool_decide (e.2 = match moves with 0 => h | S _ => nullptr end)).

(** two shards; key 0 has the handle 10 and key 1 the null handle, as
    after [try_emplace(1)] without constructor arguments *)
Definition with_null : map_sharded_t.t N N :=
  emplace 1 nullptr (emplace 0 10 (map_sharded_t.map_sharded_t 2)).
End sample.

(** ** Where the stored keys are, and visitors that never stop *)

Module routing.
Section defs.
Context {key : Type} `{!EqDecision key} {mapped_type : Type}.
Context (Hash : key → N).

Abbreviation shard := (map_lock_t.t key mapped_type).

(** every key a shard holds is a key [get_sharded] sends to that shard *)
Definition routed (m : map_sharded_t.t key mapped_type) : Prop :=
  ∀ (j : nat) (s : shard) (k : key),
    map_sharded_t.shards_ m !! j = Some s →
    k ∈ Map.keys (map_lock_t.entries s) →
    map_sharded_t.shard_index m (Hash k) = j.

(** position by position, the shards of [ss'] hold no key the shards of
    [ss] do not hold *)
Definition within (ss ss' : list shard) : Prop :=
  ∀ (j : nat) (s' : shard),
    ss' !! j = Some s' →
    ∃ s, ss !! j = Some s
         ∧ ∀ k, k ∈ Map.keys (map_lock_t.entries s') →
                k ∈ Map.keys (map_lock_t.entries s).

(** how often the argument of [erase_if] has been moved from when it
    comes to the shard behind the shards [ss]: never when it was passed
    as an lvalue, and else once for every shard of [ss] with storage *)
Definition moves_before (op : predicate key mapped_type) (ss : list shard) : nat :=
  match passed_as op with
  | lvalue => 0
  | rvalue => length (List.filter map_lock_t.allocated ss)
  end.

(** a void-producing visitor, or a boolean-producing one that answers
    [true] at every entry and in every state *)
Definition never_stops {A} (vis : visitor key mapped_type A) : Prop :=
  match vis with
  | bool_visitor op => ∀ e a, (op e a).2 = true
  | void_visitor _ => True
  end.
End defs.
End routing.

(** * Properties *)

(** ** Integer conversions *)

Section int_facts.
Local Open Scope Z_scope.

Lemma to_size_t_range z : 0 ≤ Int.to_size_t z < 2 ^ 64.
Proof. unfold Int.to_size_t, Int.size_t_modulus. apply Z.mod_pos_bound. lia. Qed.

Lemma to_size_t_small z : 0 ≤ z < 2 ^ 64 → Int.to_size_t z = z.
Proof. intros Hz. unfold Int.to_size_t, Int.size_t_modulus. by apply Z.mod_small. Qed.

Lemma to_size_t_idemp_sub a b :
  Int.to_size_t (Int.to_size_t a - b) = Int.to_size_t (a - b).
Proof.
  unfold Int.to_size_t, Int.size_t_modulus.
  rewrite Zminus_mod_idemp_l. done.
Qed.

Lemma to_size_t_idemp_add a b :
  Int.to_size_t (Int.to_size_t a + b) = Int.to_size_t (a + b).
Proof.
  unfold Int.to_size_t, Int.size_t_modulus.
  rewrite Zplus_mod_idemp_l. done.
Qed.

Lemma int_add_assign_zero total :
  - 2 ^ 31 ≤ total < 2 ^ 31 → Int.int_add_assign total 0 = total.
Proof.
  intros Ht. unfold Int.int_add_assign, Int.to_int.
  rewrite Z.add_0_r.
  assert (Int.to_size_t (Int.to_size_t total) = Int.to_size_t total) as ->.
  { apply to_size_t_small, to_size_t_range. }
  unfold Int.to_size_t, Int.size_t_modulus.
  destruct (decide (0 ≤ total)).
  - rewrite (Z.mod_small total) by lia. rewrite Z.mod_small; lia.
  - replace (total mod 2 ^ 64) with (total + 2 ^ 64).
    + replace (total + 2 ^ 64 + 2 ^ 31) with (total + 2 ^ 31 + 2 ^ 32 * 2 ^ 32) by lia.
      rewrite Z_mod_plus_full. rewrite Z.mod_small; lia.
    + apply Z.mod_unique with (q := -1); lia.
Qed.

(** a count that fits an [int] comes back unchanged from [int total] *)
Lemma int_total_small res :
  0 ≤ res ≤ Int.int_max →
  Int.to_size_t (Int.int_add_assign 0 res) = res.
Proof.
  unfold Int.int_max. intros Hr.
  unfold Int.int_add_assign, Int.to_int.
  assert (Int.to_size_t 0 = 0) as -> by done.
  rewrite Z.add_0_l.
  rewrite (to_size_t_small res) by lia.
  rewrite Z.mod_small by lia.
  rewrite to_size_t_small; lia.
Qed.
End int_facts.

(** ** The single-shard map *)

Section map_facts.
Context {key : Type} `{!EqDecision key} {mapped_type : Type}.
Implicit Types (m : Map.t key mapped_type) (e : Map.value_type key mapped_type).
Implicit Types (k : key) (v : mapped_type).

Lemma has_key_true k e : Map.has_key k e = true ↔ e.1 = k.
Proof. unfold Map.has_key. by rewrite bool_decide_eq_true. Qed.

Lemma find_Some_key k m e : Map.find k m = Some e → e ∈ m ∧ e.1 = k.
Proof.
  unfold Map.find. intros Hf. apply find_some in Hf as [Hin Hk].
  split; [by apply list_elem_of_In | by apply has_key_true].
Qed.

Lemma find_None_keys k m : Map.find k m = None ↔ k ∉ Map.keys m.
Proof.
  unfold Map.find, Map.keys. induction m as [|e m IH]; simpl.
  - split; [intros _; apply not_elem_of_nil | done].
  - destruct (Map.has_key k e) eqn:Hk.
    + apply has_key_true in Hk. split; [done|].
      intros Hn. exfalso. apply Hn. rewrite Hk. left.
    + rewrite IH, not_elem_of_cons.
      assert (k ≠ e.1).
      { intros ->. unfold Map.has_key in Hk. by rewrite bool_decide_eq_false in Hk. }
      tauto.
Qed.

Lemma filter_keep_length (f : Map.value_type key mapped_type → bool) m :
  (length (List.filter f m) + length (List.filter (λ e, negb (f e)) m) = length m)%nat.
Proof.
  induction m as [|e m IH]; simpl; [done|].
  destruct (f e); simpl; lia.
Qed.

(** what a bulk removal reports is the number of entries the predicate holds of *)
Lemma removed_filter (f : Map.value_type key mapped_type → bool) m :
  Map.removed m (List.filter (λ e, negb (f e)) m) = Z.of_nat (length (List.filter f m)).
Proof.
  unfold Map.removed. pose proof (filter_keep_length f m). f_equal. lia.
Qed.

Lemma removed_length (f : Map.value_type key mapped_type → bool) m :
  (Z.of_nat (length (List.filter (λ e, negb (f e)) m))
   = Z.of_nat (length m) - Map.removed m (List.filter (λ e, negb (f e)) m))%Z.
Proof. rewrite removed_filter. pose proof (filter_keep_length f m). lia. Qed.

Lemma removed_nonneg m m' : (0 ≤ Map.removed m m')%Z.
Proof. unfold Map.removed. lia. Qed.

Lemma filter_none (f : Map.value_type key mapped_type → bool) m :
  (∀ e, e ∈ m → f e = false) → List.filter f m = [].
Proof.
  induction m as [|e m IH]; simpl; [done|]. intros Hf.
  rewrite (Hf e) by left. apply IH. intros e' He'. apply Hf. by right.
Qed.

Lemma filter_all (f : Map.value_type key mapped_type → bool) m :
  (∀ e, e ∈ m → f e = true) → List.filter f m = m.
Proof.
  induction m as [|e m IH]; simpl; [done|]. intros Hf.
  rewrite (Hf e) by left. f_equal. apply IH. intros e' He'. apply Hf. by right.
Qed.

Lemma filter_keys_subset (f : Map.value_type key mapped_type → bool) m k :
  k ∈ Map.keys (List.filter f m) → k ∈ Map.keys m.
Proof.
  unfold Map.keys. induction m as [|e m IH]; simpl; [done|].
  destruct (f e); simpl; rewrite ?elem_of_cons; intuition.
Qed.

Lemma filter_keys_NoDup (f : Map.value_type key mapped_type → bool) m :
  NoDup (Map.keys m) → NoDup (Map.keys (List.filter f m)).
Proof.
  unfold Map.keys. induction m as [|e m IH]; simpl; [done|].
  rewrite NoDup_cons. intros [Hn Hm].
  destruct (f e); simpl; [|by apply IH].
  apply NoDup_cons. split; [|by apply IH].
  intros Hin. apply Hn. by apply (filter_keys_subset f).
Qed.

(** with unique keys at most one entry has a given key *)
Lemma unique_key_count k m :
  NoDup (Map.keys m) → (length (List.filter (Map.has_key k) m) ≤ 1)%nat.
Proof.
  unfold Map.keys. induction m as [|e m IH]; simpl; [lia|].
  rewrite NoDup_cons. intros [Hn Hm].
  destruct (Map.has_key k e) eqn:Hk; simpl; [|by apply IH].
  apply has_key_true in Hk. subst k.
  rewrite filter_none; [simpl; lia|].
  intros e' He'. unfold Map.has_key. apply bool_decide_eq_false.
  intros Heq. apply Hn. rewrite <- Heq. by apply list_elem_of_fmap_2.
Qed.

Lemma try_emplace_keys_NoDup k v m :
  NoDup (Map.keys m) → NoDup (Map.keys (Map.try_emplace k v m).1).
Proof.
  unfold Map.try_emplace. intros Hm.
  destruct (Map.find k m) eqn:Hf; simpl; [done|].
  apply find_None_keys in Hf. unfold Map.keys in *.
  rewrite fmap_app. simpl. apply NoDup_app. split; [done|]. split.
  - intros x Hx Hx'. apply list_elem_of_singleton in Hx'. by subst.
  - apply NoDup_singleton.
Qed.

Lemma try_emplace_length k v m :
  Z.of_nat (length (Map.try_emplace k v m).1)
  = (Z.of_nat (length m) + if (Map.try_emplace k v m).2.2 then 1 else 0)%Z.
Proof.
  unfold Map.try_emplace. destruct (Map.find k m); simpl; [lia|].
  rewrite length_app. simpl. lia.
Qed.
End map_facts.

(** ** One shard *)

Section shard_facts.
Context {key : Type} `{!EqDecision key} {mapped_type : Type}.
Context (nullptr : mapped_type).
Implicit Types (s : map_lock_t.t key mapped_type) (m : Map.t key mapped_type).
Implicit Types (e : Map.value_type key mapped_type) (k : key) (v : mapped_type).

Lemma shard_eta s : map_lock_t.MapLock (map_lock_t.map_ s) = s.
Proof. by destruct s. Qed.

Lemma shard_find_unallocated k s :
  map_lock_t.map_ s = None → map_lock_t.find nullptr k s = Ok nullptr.
Proof. unfold map_lock_t.find. by intros ->. Qed.

Lemma shard_find_present k s m e :
  map_lock_t.map_ s = Some m → Map.find k m = Some e →
  map_lock_t.find nullptr k s = Ok e.2.
Proof. unfold map_lock_t.find. by intros -> ->. Qed.

(** the key is not in the allocated map: [end()] is dereferenced *)
Lemma shard_find_absent k s m :
  map_lock_t.map_ s = Some m → Map.find k m = None →
  map_lock_t.find nullptr k s = UB.
Proof. unfold map_lock_t.find. by intros -> ->. Qed.

Lemma shard_try_emplace_allocated k v s :
  map_lock_t.allocated (map_lock_t.try_emplace k v s).1 = true.
Proof.
  unfold map_lock_t.try_emplace.
  destruct (map_lock_t.visit_map s) as [s1 m].
  by destruct (Map.try_emplace k v m) as [m' res].
Qed.

Lemma shard_try_emplace_entries k v s :
  map_lock_t.try_emplace k v s
  = (map_lock_t.MapLock (Some (Map.try_emplace k v (map_lock_t.entries s)).1),
     (Map.try_emplace k v (map_lock_t.entries s)).2).
Proof.
  unfold map_lock_t.try_emplace, map_lock_t.visit_map, map_lock_t.entries.
  destruct (map_lock_t.map_ s) as [m|];
    by destruct (Map.try_emplace k v _) as [m' res].
Qed.

Lemma shard_erase_if_entries (op : predicate key mapped_type) (moves : nat) s :
  map_lock_t.entries (map_lock_t.erase_if op moves s).1.1
  = List.filter (λ e, negb (test op moves e)) (map_lock_t.entries s)
  ∧ (map_lock_t.erase_if op moves s).1.2
    = Z.of_nat (length (List.filter (test op moves) (map_lock_t.entries s))).
Proof.
  unfold map_lock_t.erase_if, map_lock_t.entries, Map.erase_if.
  destruct (map_lock_t.map_ s) as [m|] eqn:Hs; simpl.
  - by rewrite removed_filter.
  - by rewrite Hs.
Qed.

(** the argument is moved from only when the shard has storage *)
Lemma shard_erase_if_moves (op : predicate key mapped_type) (moves : nat) s :
  (map_lock_t.erase_if op moves s).2
  = if map_lock_t.allocated s then forwarded op moves else moves.
Proof.
  unfold map_lock_t.erase_if, map_lock_t.allocated.
  by destruct (map_lock_t.map_ s).
Qed.

Lemma shard_erase_entries k s :
  map_lock_t.entries (map_lock_t.erase k s).1
  = List.filter (λ e, negb (Map.has_key k e)) (map_lock_t.entries s)
  ∧ (map_lock_t.erase k s).2
    = Z.of_nat (length (List.filter (Map.has_key k) (map_lock_t.entries s))).
Proof.
  unfold map_lock_t.erase, map_lock_t.entries, Map.erase.
  destruct (map_lock_t.map_ s) as [m|] eqn:Hs; simpl.
  - by rewrite removed_filter.
  - by rewrite Hs.
Qed.

Lemma shard_erase_if_allocated (op : predicate key mapped_type) (moves : nat) s :
  map_lock_t.allocated (map_lock_t.erase_if op moves s).1.1 = map_lock_t.allocated s.
Proof.
  unfold map_lock_t.erase_if, map_lock_t.allocated.
  destruct (map_lock_t.map_ s) as [m|] eqn:Hs; simpl; by rewrite ?Hs.
Qed.

Lemma shard_erase_allocated k s :
  map_lock_t.allocated (map_lock_t.erase k s).1 = map_lock_t.allocated s.
Proof.
  unfold map_lock_t.erase, map_lock_t.allocated.
  destruct (map_lock_t.map_ s) as [m|] eqn:Hs; simpl; by rewrite ?Hs.
Qed.

(** *** the range-for of [for_each] *)

(** the body never ends in a [Return]: [return false] stands behind a
    [break] *)
Lemma for_each_body_ctl {A} (vis : visitor key mapped_type A) e (a : A) :
  (map_lock_t.for_each_body vis e a).2 = Normal
  ∨ (map_lock_t.for_each_body vis e a).2 = Break.
Proof.
  unfold map_lock_t.for_each_body. destruct vis as [op|op].
  - destruct (op e a) as [[v' a'] [|]]; simpl; auto.
  - destruct (op e a) as [v' a']; simpl; auto.
Qed.

Lemma for_each_body_key {A} (vis : visitor key mapped_type A) e (a : A) :
  (map_lock_t.for_each_body vis e a).1.1.1 = e.1.
Proof.
  unfold map_lock_t.for_each_body. destruct vis as [op|op].
  - by destruct (op e a) as [[v' a'] r].
  - by destruct (op e a) as [v' a'].
Qed.

Lemma for_each_loop_ctl {A} (vis : visitor key mapped_type A) m (a : A) :
  (map_lock_t.for_each_loop vis m a).2 = Normal.
Proof.
  revert a. induction m as [|e m IH]; intros a; simpl; [done|].
  pose proof (for_each_body_ctl vis e a) as Hc.
  destruct (map_lock_t.for_each_body vis e a) as [[e' a'] c]; simpl in Hc.
  destruct Hc as [-> | ->]; [|done].
  specialize (IH a').
  by destruct (map_lock_t.for_each_loop vis m a') as [[[m' a''] tr] c'].
Qed.

Lemma for_each_loop_keys {A} (vis : visitor key mapped_type A) m (a : A) :
  Map.keys (map_lock_t.for_each_loop vis m a).1.1.1 = Map.keys m.
Proof.
  unfold Map.keys. revert a. induction m as [|e m IH]; intros a; simpl; [done|].
  pose proof (for_each_body_key vis e a) as Hk.
  destruct (map_lock_t.for_each_body vis e a) as [[e' a'] c]; simpl in Hk.
  destruct c; simpl; rewrite ?Hk; try done.
  specialize (IH a').
  destruct (map_lock_t.for_each_loop vis m a') as [[[m' a''] tr] c']; simpl in *.
  f_equal; [done | exact IH].
Qed.

(** the shard's [for_each] returns [true] whatever the visitor answers *)
Lemma shard_for_each_true {A} (vis : visitor key mapped_type A) s (a : A) :
  (map_lock_t.for_each vis s a).2 = true.
Proof.
  unfold map_lock_t.for_each. destruct (map_lock_t.map_ s) as [m|]; [|done].
  pose proof (for_each_loop_ctl vis m a) as Hc.
  destruct (map_lock_t.for_each_loop vis m a) as [[[m' a'] tr] c]; simpl in *.
  by subst c.
Qed.

Lemma shard_for_each_keys {A} (vis : visitor key mapped_type A) s (a : A) :
  Map.keys (map_lock_t.entries (map_lock_t.for_each vis s a).1.1.1)
  = Map.keys (map_lock_t.entries s).
Proof.
  unfold map_lock_t.for_each, map_lock_t.entries.
  destruct (map_lock_t.map_ s) as [m|] eqn:Hs; simpl; [|by rewrite Hs].
  pose proof (for_each_loop_keys vis m a) as Hk.
  by destruct (map_lock_t.for_each_loop vis m a) as [[[m' a'] tr] c].
Qed.

Lemma shard_for_each_allocated {A} (vis : visitor key mapped_type A) s (a : A) :
  map_lock_t.allocated (map_lock_t.for_each vis s a).1.1.1 = map_lock_t.allocated s.
Proof.
  unfold map_lock_t.for_each, map_lock_t.allocated.
  destruct (map_lock_t.map_ s) as [m|] eqn:Hs; simpl; [|by rewrite Hs].
  by destruct (map_lock_t.for_each_loop vis m a) as [[[m' a'] tr] c].
Qed.
End shard_facts.

(** ** Histories of one shard *)

Section shard_history.
Context {key : Type} `{!EqDecision key} {mapped_type : Type}.
Context (nullptr : mapped_type).
Implicit Types (s : map_lock_t.t key mapped_type) (k : key) (v : mapped_type).
Implicit Types (o : @history.shard_op key mapped_type).

Lemma shard_step_allocated o s s' :
  history.shard_step nullptr o s = Ok s' →
  map_lock_t.allocated s = true → map_lock_t.allocated s' = true.
Proof.
  destruct o as [k|k v|k|p|vis]; simpl.
  - destruct (map_lock_t.find nullptr k s); simpl; [|done]. by intros [= <-].
  - intros [= <-] _. apply shard_try_emplace_allocated.
  - intros [= <-]. by rewrite shard_erase_allocated.
  - intros [= <-]. by rewrite shard_erase_if_allocated.
  - intros [= <-]. by rewrite shard_for_each_allocated.
Qed.

(** only [try_emplace] takes a shard from unallocated to allocated *)
Lemma shard_step_allocates o s s' :
  history.shard_step nullptr o s = Ok s' →
  history.allocates s s' = true → history.is_try_emplace o = true.
Proof.
  unfold history.allocates. rewrite andb_true_iff, negb_true_iff.
  destruct o as [k|k v|k|p|vis]; simpl; [| done | | |].
  - destruct (map_lock_t.find nullptr k s); simpl; [|done].
    intros [= <-] [Hs Hs']. congruence.
  - intros [= <-] [Hs Hs']. rewrite shard_erase_allocated in Hs'. congruence.
  - intros [= <-] [Hs Hs']. rewrite shard_erase_if_allocated in Hs'. congruence.
  - intros [= <-] [Hs Hs']. rewrite shard_for_each_allocated in Hs'. congruence.
Qed.

Lemma allocations_allocated ops s :
  map_lock_t.allocated s = true → history.allocations nullptr ops s = 0.
Proof.
  revert s. induction ops as [|o ops IH]; intros s Hs; simpl; [done|].
  destruct (history.shard_step nullptr o s) as [s'|] eqn:Hstep; [|done].
  unfold history.allocates. rewrite Hs. simpl.
  apply IH. by eapply shard_step_allocated.
Qed.

Lemma allocations_at_most_once ops s :
  history.allocations nullptr ops s ≤ 1.
Proof.
  revert s. induction ops as [|o ops IH]; intros s; simpl; [lia|].
  destruct (history.shard_step nullptr o s) as [s'|] eqn:Hstep; [|lia].
  destruct (history.allocates s s') eqn:Ha.
  - unfold history.allocates in Ha. apply andb_true_iff in Ha as [_ Hs'].
    rewrite allocations_allocated by done. lia.
  - specialize (IH s'). lia.
Qed.

End shard_history.


(** ** The shard array *)

Section shards_facts.
Context {key : Type} `{!EqDecision key} {mapped_type : Type}.
Implicit Types (s : map_lock_t.t key mapped_type) (k : key) (v : mapped_type).
Implicit Types (ss : list (map_lock_t.t key mapped_type)).
Implicit Types (op : predicate key mapped_type) (moves : nat).
Local Open Scope Z_scope.

Abbreviation count ss := (Z.of_nat (length (map_sharded_t.entries_of ss))).

Lemma entries_of_cons s ss :
  map_sharded_t.entries_of (s :: ss)
  = map_lock_t.entries s ++ map_sharded_t.entries_of ss.
Proof. done. Qed.

Lemma count_cons s ss :
  count (s :: ss) = Z.of_nat (length (map_lock_t.entries s)) + count ss.
Proof. rewrite entries_of_cons, length_app. lia. Qed.

Lemma count_insert ss (i : nat) s s' :
  ss !! i = Some s →
  count (<[i:=s']> ss)
  = count ss - Z.of_nat (length (map_lock_t.entries s))
    + Z.of_nat (length (map_lock_t.entries s')).
Proof.
  revert i. induction ss as [|s0 ss IH]; intros i Hi; [done|].
  destruct i as [|i]; simpl in Hi.
  - injection Hi as ->. simpl. rewrite !count_cons. lia.
  - simpl. rewrite !count_cons. rewrite (IH i Hi). lia.
Qed.

Lemma entries_of_replicate (n : nat) :
  map_sharded_t.entries_of (replicate n (@map_lock_t.map_lock_t key mapped_type)) = [].
Proof. induction n as [|n IH]; [done|]. simpl. by rewrite entries_of_cons, IH. Qed.

Lemma elem_of_entries_of e s ss :
  s ∈ ss → e ∈ map_lock_t.entries s → e ∈ map_sharded_t.entries_of ss.
Proof.
  intros Hs He. induction ss as [|s0 ss IH]; [by apply elem_of_nil in Hs|].
  rewrite entries_of_cons. apply elem_of_app.
  apply elem_of_cons in Hs as [<- | Hs]; auto.
Qed.

(** a shard no entry of which the predicate holds of is left as it is *)
Lemma shard_erase_if_none op moves s :
  (∀ e, e ∈ map_lock_t.entries s → test op moves e = false) →
  (map_lock_t.erase_if op moves s).1 = (s, 0).
Proof.
  unfold map_lock_t.erase_if, map_lock_t.entries, Map.erase_if.
  destruct s as [[m|]]; simpl; [|done]. intros Hno.
  rewrite removed_filter, (filter_none (test op moves) m Hno).
  rewrite filter_all; [done|]. intros e He. by rewrite (Hno e He).
Qed.

Lemma shard_erase_if_wf op moves s :
  map_lock_t.wf s → map_lock_t.wf (map_lock_t.erase_if op moves s).1.1.
Proof.
  unfold map_lock_t.wf.
  destruct (shard_erase_if_entries op moves s) as [-> _]. apply filter_keys_NoDup.
Qed.

Lemma shard_erase_wf k s :
  map_lock_t.wf s → map_lock_t.wf (map_lock_t.erase k s).1.
Proof.
  unfold map_lock_t.wf.
  destruct (shard_erase_entries k s) as [-> _]. apply filter_keys_NoDup.
Qed.

Lemma shard_try_emplace_wf k v s :
  map_lock_t.wf s → map_lock_t.wf (map_lock_t.try_emplace k v s).1.
Proof.
  unfold map_lock_t.wf. rewrite shard_try_emplace_entries. simpl.
  apply try_emplace_keys_NoDup.
Qed.

Lemma shard_for_each_wf {A} (vis : visitor key mapped_type A) s (a : A) :
  map_lock_t.wf s → map_lock_t.wf (map_lock_t.for_each vis s a).1.1.1.
Proof. unfold map_lock_t.wf. by rewrite shard_for_each_keys. Qed.

Lemma shard_for_each_length {A} (vis : visitor key mapped_type A) s (a : A) :
  length (map_lock_t.entries (map_lock_t.for_each vis s a).1.1.1)
  = length (map_lock_t.entries s).
Proof.
  pose proof (shard_for_each_keys vis s a) as Hk. unfold Map.keys in Hk.
  apply (f_equal length) in Hk. by rewrite !length_fmap in Hk.
Qed.

(** what a shard's [erase_if] reports is what it took out *)
Lemma shard_erase_if_count op moves s :
  (map_lock_t.erase_if op moves s).1.2
  = Z.of_nat (length (map_lock_t.entries s))
    - Z.of_nat (length (map_lock_t.entries (map_lock_t.erase_if op moves s).1.1)).
Proof.
  destruct (shard_erase_if_entries op moves s) as [-> ->].
  pose proof (filter_keep_length (test op moves) (map_lock_t.entries s)). lia.
Qed.

Lemma shard_erase_if_nonneg op moves s :
  0 ≤ (map_lock_t.erase_if op moves s).1.2.
Proof. destruct (shard_erase_if_entries op moves s) as [_ ->]. lia. Qed.

Lemma shard_erase_count k s :
  (map_lock_t.erase k s).2
  = Z.of_nat (length (map_lock_t.entries s))
    - Z.of_nat (length (map_lock_t.entries (map_lock_t.erase k s).1)).
Proof.
  destruct (shard_erase_entries k s) as [-> ->].
  pose proof (filter_keep_length (Map.has_key k) (map_lock_t.entries s)). lia.
Qed.

Lemma fetch_sub_range sz res : 0 ≤ Int.fetch_sub sz res < 2 ^ 64.
Proof. apply to_size_t_range. Qed.

(** the loop of [erase_if] *)
Lemma erase_if_loop_spec op moves ss total sz ss' total' sz' :
  map_sharded_t.erase_if_loop op moves ss total sz = (ss', total', sz') →
  length ss' = length ss
  ∧ (Forall map_lock_t.wf ss → Forall map_lock_t.wf ss')
  ∧ count ss' ≤ count ss
  ∧ Int.to_size_t sz' = Int.to_size_t (sz - (count ss - count ss'))
  ∧ (0 ≤ sz < 2 ^ 64 → 0 ≤ sz' < 2 ^ 64).
Proof.
  revert moves total sz ss' total' sz'.
  induction ss as [|s ss IH]; intros moves total sz ss' total' sz'; simpl.
  - intros [= <- <- <-]. split_and!; auto; simpl; try lia. f_equal. lia.
  - destruct (map_lock_t.erase_if op moves s) as [[s1 res] moves1] eqn:Hs.
    destruct (map_sharded_t.erase_if_loop op moves1 ss _ _) as [[rest t] z] eqn:Hl.
    intros [= <- <- <-].
    destruct (IH _ _ _ _ _ _ Hl) as (Hlen & Hwf & Hle & Hsz & Hrange).
    pose proof (shard_erase_if_count op moves s) as Hc.
    pose proof (shard_erase_if_nonneg op moves s) as Hnn.
    pose proof (shard_erase_if_wf op moves s) as Hw.
    rewrite Hs in Hc, Hnn, Hw. simpl in Hc, Hnn, Hw.
    split_and!.
    + simpl. by rewrite Hlen.
    + intros Hall. apply Forall_cons in Hall as [? ?].
      apply Forall_cons. split; auto.
    + rewrite !count_cons. lia.
    + rewrite Hsz. unfold Int.fetch_sub. rewrite to_size_t_idemp_sub.
      rewrite !count_cons. f_equal. lia.
    + intros _. apply Hrange, fetch_sub_range.
Qed.

(** the loop of [erase_one] *)
Lemma erase_one_loop_spec op moves ss total sz ss' total' sz' :
  map_sharded_t.erase_one_loop op moves ss total sz = (ss', total', sz') →
  length ss' = length ss
  ∧ (Forall map_lock_t.wf ss → Forall map_lock_t.wf ss')
  ∧ Int.to_size_t sz' = Int.to_size_t (sz - (count ss - count ss'))
  ∧ (0 ≤ sz < 2 ^ 64 → 0 ≤ sz' < 2 ^ 64).
Proof.
  revert moves ss' total' sz'.
  induction ss as [|s ss IH]; intros moves ss' total' sz'; simpl.
  - intros [= <- <- <-]. split_and!; auto; try lia. f_equal. simpl. lia.
  - destruct (map_lock_t.erase_if op moves s) as [[s1 res] moves1] eqn:Hs.
    pose proof (shard_erase_if_count op moves s) as Hc.
    pose proof (shard_erase_if_wf op moves s) as Hw.
    rewrite Hs in Hc, Hw. simpl in Hc, Hw.
    destruct (decide (res ≠ 0)) as [Hres|Hres].
    + intros [= <- <- <-]. split_and!.
      * done.
      * intros Hall. apply Forall_cons in Hall as [? ?].
        apply Forall_cons. split; auto.
      * unfold Int.fetch_sub. rewrite to_size_t_small by apply to_size_t_range.
        rewrite !count_cons. f_equal. lia.
      * intros _. apply fetch_sub_range.
    + destruct (map_sharded_t.erase_one_loop op moves1 ss total sz)
        as [[rest t] z] eqn:Hl.
      intros [= <- <- <-].
      destruct (IH _ _ _ _ Hl) as (Hlen & Hwf & Hsz & Hrange).
      split_and!.
      * simpl. by rewrite Hlen.
      * intros Hall. apply Forall_cons in Hall as [? ?].
        apply Forall_cons. split; auto.
      * rewrite Hsz, !count_cons. f_equal. lia.
      * done.
Qed.

(** the loop of [for_each] over the shards keeps every shard's keys *)
Lemma for_each_loop_spec {A} (vis : visitor key mapped_type A) ss (a : A) :
  length (map_sharded_t.for_each_loop vis ss a).1.1 = length ss
  ∧ (Forall map_lock_t.wf ss →
     Forall map_lock_t.wf (map_sharded_t.for_each_loop vis ss a).1.1)
  ∧ count (map_sharded_t.for_each_loop vis ss a).1.1 = count ss.
Proof.
  revert a. induction ss as [|s ss IH]; intros a; simpl; [done|].
  pose proof (shard_for_each_wf vis s a) as Hw.
  pose proof (shard_for_each_length vis s a) as Hn.
  destruct (map_lock_t.for_each vis s a) as [[[s1 a1] tr] b]. simpl in Hw, Hn.
  destruct b; simpl.
  - destruct (IH a1) as (Hlen & Hwf & Hcount).
    destruct (map_sharded_t.for_each_loop vis ss a1) as [[rest a2] tr2].
    simpl in *. split_and!.
    + by rewrite Hlen.
    + intros Hall. apply Forall_cons in Hall as [? ?].
      apply Forall_cons. split; auto.
    + rewrite !count_cons, Hn. lia.
  - split_and!.
    + done.
    + intros Hall. apply Forall_cons in Hall as [? ?].
      apply Forall_cons. split; auto.
    + rewrite !count_cons, Hn. lia.
Qed.
End shards_facts.

(** ** The sharded map *)

Section sharded_facts.
Context {key : Type} `{!EqDecision key} {mapped_type : Type}.
Context (nullptr : mapped_type) (Hash : key → N).
Implicit Types (m : map_sharded_t.t key mapped_type).
Implicit Types (s : map_lock_t.t key mapped_type) (k : key) (v : mapped_type).

Lemma shard_index_mod m (h : N) :
  N.of_nat (map_sharded_t.shard_index m h)
  = (h mod N.of_nat (length (map_sharded_t.shards_ m)))%N.
Proof. unfold map_sharded_t.shard_index. apply N2Nat.id. Qed.

Lemma shard_index_lt m (h : N) :
  length (map_sharded_t.shards_ m) ≠ 0 →
  map_sharded_t.shard_index m h < length (map_sharded_t.shards_ m).
Proof.
  intros Hn. unfold map_sharded_t.shard_index.
  pose proof (N.mod_lt h (N.of_nat (length (map_sharded_t.shards_ m)))). lia.
Qed.

Lemma get_sharded_Ok m (h : N) :
  length (map_sharded_t.shards_ m) ≠ 0 →
  ∃ s, map_sharded_t.shards_ m !! map_sharded_t.shard_index m h = Some s
       ∧ map_sharded_t.get_sharded m h = Ok (map_sharded_t.shard_index m h, s).
Proof.
  intros Hn. destruct (lookup_lt_is_Some_2 _ _ (shard_index_lt m h Hn)) as [s Hs].
  exists s. split; [done|]. unfold map_sharded_t.get_sharded.
  rewrite decide_False by done. by rewrite Hs.
Qed.

Lemma get_sharded_empty m (h : N) :
  length (map_sharded_t.shards_ m) = 0 → map_sharded_t.get_sharded m h = UB.
Proof. intros Hn. unfold map_sharded_t.get_sharded. by rewrite decide_True. Qed.

Lemma try_emplace_shard k v m :
  length (map_sharded_t.shards_ m) ≠ 0 →
  ∃ s, map_sharded_t.shards_ m !! map_sharded_t.shard_index m (Hash k) = Some s
    ∧ map_sharded_t.try_emplace Hash k v m
      = Ok (map_sharded_t.MapSharded
              (<[map_sharded_t.shard_index m (Hash k) :=
                   (map_lock_t.try_emplace k v s).1]> (map_sharded_t.shards_ m))
              (if (map_lock_t.try_emplace k v s).2.2
               then Int.fetch_add (map_sharded_t.size_ m) 1
               else map_sharded_t.size_ m),
            (map_lock_t.try_emplace k v s).2).
Proof.
  intros Hn. destruct (get_sharded_Ok m (Hash k) Hn) as (s & Hs & Hg).
  exists s. split; [done|]. unfold map_sharded_t.try_emplace. rewrite Hg. simpl.
  by destruct (map_lock_t.try_emplace k v s) as [s' res].
Qed.

Lemma erase_shard k m :
  length (map_sharded_t.shards_ m) ≠ 0 →
  ∃ s, map_sharded_t.shards_ m !! map_sharded_t.shard_index m (Hash k) = Some s
    ∧ map_sharded_t.erase Hash k m
      = Ok (map_sharded_t.MapSharded
              (<[map_sharded_t.shard_index m (Hash k) :=
                   (map_lock_t.erase k s).1]> (map_sharded_t.shards_ m))
              (if decide ((map_lock_t.erase k s).2 ≠ 0%Z)
               then Int.fetch_sub (map_sharded_t.size_ m) (map_lock_t.erase k s).2
               else map_sharded_t.size_ m),
            (map_lock_t.erase k s).2).
Proof.
  intros Hn. destruct (get_sharded_Ok m (Hash k) Hn) as (s & Hs & Hg).
  exists s. split; [done|]. unfold map_sharded_t.erase. rewrite Hg. simpl.
  by destruct (map_lock_t.erase k s) as [s' res].
Qed.

Lemma find_shard k m :
  length (map_sharded_t.shards_ m) ≠ 0 →
  ∃ s, map_sharded_t.shards_ m !! map_sharded_t.shard_index m (Hash k) = Some s
    ∧ map_sharded_t.find nullptr Hash k m = map_lock_t.find nullptr k s.
Proof.
  intros Hn. destruct (get_sharded_Ok m (Hash k) Hn) as (s & Hs & Hg).
  exists s. split; [done|]. unfold map_sharded_t.find. by rewrite Hg.
Qed.

(** *** the invariant *)

Lemma inv_size_range m :
  map_sharded_t.inv m → (0 ≤ map_sharded_t.size_ m < 2 ^ 64)%Z.
Proof. intros [_ ->]. apply to_size_t_range. Qed.

Lemma inv_constructed (shard_num : nat) :
  map_sharded_t.inv (@map_sharded_t.map_sharded_t key mapped_type shard_num)
  ∧ map_sharded_t.live (@map_sharded_t.map_sharded_t key mapped_type shard_num) = 0%Z.
Proof.
  unfold map_sharded_t.inv, map_sharded_t.live, map_sharded_t.entries. simpl.
  rewrite entries_of_replicate. split_and!; [|done..].
  apply Forall_replicate. unfold map_lock_t.wf. simpl. apply NoDup_nil_2.
Qed.

Lemma try_emplace_inv k v m m' res :
  map_sharded_t.try_emplace Hash k v m = Ok (m', res) →
  length (map_sharded_t.shards_ m') = length (map_sharded_t.shards_ m)
  ∧ map_sharded_t.live m' = (map_sharded_t.live m + if res.2 then 1 else 0)%Z
  ∧ (map_sharded_t.inv m → map_sharded_t.inv m').
Proof.
  intros Hte.
  destruct (decide (length (map_sharded_t.shards_ m) = 0)) as [Hn|Hn].
  { unfold map_sharded_t.try_emplace in Hte.
    by rewrite get_sharded_empty in Hte. }
  destruct (try_emplace_shard k v m Hn) as (s & Hs & Heq).
  rewrite Heq in Hte. injection Hte as <- <-.
  assert (map_sharded_t.live
            (map_sharded_t.MapSharded
               (<[map_sharded_t.shard_index m (Hash k) :=
                    (map_lock_t.try_emplace k v s).1]> (map_sharded_t.shards_ m))
               (if (map_lock_t.try_emplace k v s).2.2
                then Int.fetch_add (map_sharded_t.size_ m) 1
                else map_sharded_t.size_ m))
          = (map_sharded_t.live m
             + if (map_lock_t.try_emplace k v s).2.2 then 1 else 0)%Z) as Hlive.
  { unfold map_sharded_t.live, map_sharded_t.entries. simpl.
    rewrite (count_insert _ _ s) by done.
    rewrite shard_try_emplace_entries. simpl.
    change (map_lock_t.entries (map_lock_t.MapLock (Some ?x))) with x.
    rewrite try_emplace_length. lia. }
  split_and!.
  - simpl. apply length_insert.
  - done.
  - intros [Hwf Hsz]. split; simpl.
    + apply Forall_insert; [done|]. apply shard_try_emplace_wf.
      by eapply Forall_lookup_1.
    + rewrite Hlive, Hsz.
      destruct (map_lock_t.try_emplace k v s).2.2.
      * unfold Int.fetch_add. apply to_size_t_idemp_add.
      * f_equal. lia.
Qed.

Lemma erase_inv k m m' res :
  map_sharded_t.erase Hash k m = Ok (m', res) →
  length (map_sharded_t.shards_ m') = length (map_sharded_t.shards_ m)
  ∧ res = (map_sharded_t.live m - map_sharded_t.live m')%Z
  ∧ (map_sharded_t.inv m → map_sharded_t.inv m').
Proof.
  intros Her.
  destruct (decide (length (map_sharded_t.shards_ m) = 0)) as [Hn|Hn].
  { unfold map_sharded_t.erase in Her. by rewrite get_sharded_empty in Her. }
  destruct (erase_shard k m Hn) as (s & Hs & Heq).
  rewrite Heq in Her. injection Her as <- <-.
  pose proof (shard_erase_count k s) as Hc.
  assert ((map_lock_t.erase k s).2
          = (map_sharded_t.live m
             - Z.of_nat (length (map_sharded_t.entries_of
                 (<[map_sharded_t.shard_index m (Hash k) :=
                      (map_lock_t.erase k s).1]> (map_sharded_t.shards_ m)))))%Z)
    as Hlive.
  { unfold map_sharded_t.live, map_sharded_t.entries.
    rewrite (count_insert _ _ s) by done. lia. }
  split_and!.
  - simpl. apply length_insert.
  - done.
  - intros [Hwf Hsz]. split; simpl.
    + apply Forall_insert; [done|]. apply shard_erase_wf.
      by eapply Forall_lookup_1.
    + unfold map_sharded_t.live at 1, map_sharded_t.entries. simpl.
      destruct (decide _) as [Hne|He].
      * rewrite Hsz. unfold Int.fetch_sub. rewrite to_size_t_idemp_sub.
        f_equal. lia.
      * rewrite Hsz. f_equal. lia.
Qed.

Lemma erase_if_inv (op : predicate key mapped_type) m :
  length (map_sharded_t.shards_ (map_sharded_t.erase_if op m).1)
  = length (map_sharded_t.shards_ m)
  ∧ (map_sharded_t.live (map_sharded_t.erase_if op m).1 ≤ map_sharded_t.live m)%Z
  ∧ (map_sharded_t.inv m → map_sharded_t.inv (map_sharded_t.erase_if op m).1).
Proof.
  unfold map_sharded_t.erase_if.
  destruct (map_sharded_t.erase_if_loop op _ _ _ _) as [[ss total] sz] eqn:Hl.
  destruct (erase_if_loop_spec _ _ _ _ _ _ _ _ Hl) as (Hlen & Hwf & Hle & Hsz & Hr).
  simpl. split_and!; [done..|].
  intros Hinv. pose proof (inv_size_range m Hinv) as Hrange.
  destruct Hinv as [Hw Hs]. split; simpl; [by apply Hwf|].
  rewrite <- (to_size_t_small sz) by auto.
  rewrite Hsz, Hs, to_size_t_idemp_sub.
  unfold map_sharded_t.live, map_sharded_t.entries. simpl. f_equal. lia.
Qed.

Lemma erase_one_inv (op : predicate key mapped_type) m :
  length (map_sharded_t.shards_ (map_sharded_t.erase_one op m).1)
  = length (map_sharded_t.shards_ m)
  ∧ (map_sharded_t.inv m → map_sharded_t.inv (map_sharded_t.erase_one op m).1).
Proof.
  unfold map_sharded_t.erase_one.
  destruct (map_sharded_t.erase_one_loop op _ _ _ _) as [[ss total] sz] eqn:Hl.
  destruct (erase_one_loop_spec _ _ _ _ _ _ _ _ Hl) as (Hlen & Hwf & Hsz & Hr).
  simpl. split; [done|].
  intros Hinv. pose proof (inv_size_range m Hinv) as Hrange.
  destruct Hinv as [Hw Hs]. split; simpl; [by apply Hwf|].
  rewrite <- (to_size_t_small sz) by auto.
  rewrite Hsz, Hs, to_size_t_idemp_sub.
  unfold map_sharded_t.live, map_sharded_t.entries. simpl. f_equal. lia.
Qed.

Lemma for_each_inv {A} (vis : visitor key mapped_type A) m (a : A) :
  length (map_sharded_t.shards_ (map_sharded_t.for_each vis m a).1.1)
  = length (map_sharded_t.shards_ m)
  ∧ map_sharded_t.live (map_sharded_t.for_each vis m a).1.1 = map_sharded_t.live m
  ∧ (map_sharded_t.inv m → map_sharded_t.inv (map_sharded_t.for_each vis m a).1.1).
Proof.
  unfold map_sharded_t.for_each.
  destruct (for_each_loop_spec vis (map_sharded_t.shards_ m) a) as (Hlen & Hwf & Hc).
  destruct (map_sharded_t.for_each_loop vis _ a) as [[ss a'] tr].
  simpl in *. split_and!; [done..|].
  intros [Hw Hs]. split; simpl; [by apply Hwf|].
  rewrite Hs. unfold map_sharded_t.live, map_sharded_t.entries. simpl.
  by rewrite Hc.
Qed.
End sharded_facts.

(** ** Histories of the sharded map *)

Section history_facts.
Context {key : Type} `{!EqDecision key} {mapped_type : Type}.
Context (nullptr : mapped_type) (Hash : key → N).
Implicit Types (m : map_sharded_t.t key mapped_type).
Implicit Types (o : @history.op key mapped_type).
Implicit Types (ev : history.event) (evs : list history.event).
Local Open Scope Z_scope.

(** what an event adds to the number of entries *)
Lemma step_spec o m m' ev :
  history.step nullptr Hash o m = Ok (m', ev) →
  length (map_sharded_t.shards_ m') = length (map_sharded_t.shards_ m)
  ∧ map_sharded_t.live m'
    = map_sharded_t.live m + history.inserts [ev] - history.removals [ev]
  ∧ (map_sharded_t.inv m → map_sharded_t.inv m').
Proof.
  destruct o as [k v|k|p|p|k|vis|p]; simpl.
  - destruct (map_sharded_t.try_emplace Hash k v m) as [[m1 res]|] eqn:Hte;
      simpl; [|done].
    intros [= <- <-].
    destruct (try_emplace_inv Hash _ _ _ _ _ Hte) as (Hlen & Hlive & Hinv).
    split_and!; [done| |done]. rewrite Hlive. destruct res.2; lia.
  - destruct (map_sharded_t.erase Hash k m) as [[m1 res]|] eqn:Her;
      simpl; [|done].
    intros [= <- <-].
    destruct (erase_inv Hash _ _ _ _ Her) as (Hlen & Hres & Hinv).
    split_and!; [done| |done]. unfold history.taken_out. lia.
  - intros [= <- <-].
    destruct (erase_if_inv p m) as (Hlen & _ & Hinv).
    split_and!; [done| |done]. unfold history.taken_out. lia.
  - intros [= <- <-].
    destruct (erase_one_inv p m) as (Hlen & Hinv).
    split_and!; [done| |done]. unfold history.taken_out. lia.
  - destruct (map_sharded_t.find nullptr Hash k m); simpl; [|done].
    intros [= <- <-]. split_and!; [done| lia |done].
  - intros [= <- <-].
    destruct (for_each_inv vis m ()) as (Hlen & Hlive & Hinv).
    split_and!; [done| lia |done].
  - intros [= <- <-]. split_and!; [done| lia |done].
Qed.

Lemma inserts_cons ev evs :
  history.inserts (ev :: evs) = history.inserts [ev] + history.inserts evs.
Proof. destruct ev as [[|]| |]; simpl; lia. Qed.

Lemma removals_cons ev evs :
  history.removals (ev :: evs) = history.removals [ev] + history.removals evs.
Proof. destruct ev as [[|]| |]; simpl; lia. Qed.

Lemma run_spec ops m m' evs :
  history.run nullptr Hash ops m = Ok (m', evs) →
  length (map_sharded_t.shards_ m') = length (map_sharded_t.shards_ m)
  ∧ map_sharded_t.live m'
    = map_sharded_t.live m + history.inserts evs - history.removals evs
  ∧ (map_sharded_t.inv m → map_sharded_t.inv m').
Proof.
  revert m m' evs. induction ops as [|o ops IH]; intros m m' evs; simpl.
  - intros [= <- <-]. split_and!; [done| simpl; lia |done].
  - destruct (history.step nullptr Hash o m) as [[m1 ev]|] eqn:Hstep;
      simpl; [|done].
    destruct (history.run nullptr Hash ops m1) as [[m2 evs2]|] eqn:Hrun;
      simpl; [|done].
    intros [= <- <-].
    destruct (step_spec _ _ _ _ Hstep) as (Hlen1 & Hlive1 & Hinv1).
    destruct (IH _ _ _ Hrun) as (Hlen2 & Hlive2 & Hinv2).
    split_and!.
    + congruence.
    + rewrite inserts_cons, removals_cons. lia.
    + auto.
Qed.

(** every call but [find] returns when the map has a shard *)
Lemma step_total o m :
  length (map_sharded_t.shards_ m) ≠ 0%nat → history.is_find o = false →
  is_Ok (history.step nullptr Hash o m) = true.
Proof.
  intros Hn. destruct o as [k v|k|p|p|k|vis|p]; simpl; try done.
  - destruct (try_emplace_shard Hash k v m Hn) as (s & _ & ->). done.
  - destruct (erase_shard Hash k m Hn) as (s & _ & ->). done.
Qed.

Lemma run_total ops m :
  length (map_sharded_t.shards_ m) ≠ 0%nat →
  forallb (λ o, negb (history.is_find o)) ops = true →
  is_Ok (history.run nullptr Hash ops m) = true.
Proof.
  revert m. induction ops as [|o ops IH]; intros m Hn Hops; simpl; [done|].
  simpl in Hops. apply andb_true_iff in Hops as [Ho Hops].
  apply negb_true_iff in Ho.
  pose proof (step_total o m Hn Ho) as Hstep.
  destruct (history.step nullptr Hash o m) as [[m1 ev]|] eqn:Hs; [|done].
  simpl. destruct (step_spec _ _ _ _ Hs) as (Hlen & _ & _).
  assert (length (map_sharded_t.shards_ m1) ≠ 0%nat) as Hn1 by congruence.
  specialize (IH m1 Hn1 Hops).
  by destruct (history.run nullptr Hash ops m1) as [[m2 evs]|].
Qed.

Lemma reachable_inv (shard_num : nat) m :
  history.reachable nullptr Hash shard_num m →
  map_sharded_t.inv m ∧ length (map_sharded_t.shards_ m) = shard_num.
Proof.
  intros (ops & evs & Hrun).
  destruct (run_spec _ _ _ _ Hrun) as (Hlen & _ & Hinv).
  split; [apply Hinv, inv_constructed|].
  rewrite Hlen. simpl. apply length_replicate.
Qed.
End history_facts.

(** ** Routing, insertion and the counter *)

Section routing_and_counter.
Context {key : Type} `{!EqDecision key} {mapped_type : Type}.
Context (nullptr : mapped_type) (Hash : key → N).
Implicit Types (m : map_sharded_t.t key mapped_type).
Implicit Types (k : key) (v : mapped_type).
Local Open Scope Z_scope.

(** C3: with at least one shard, the index of a key is its hash modulo
    the number of shards and lies below that number; [find],
    [try_emplace] and [erase] work on the shard at that index and leave
    the other shards alone; and the index of the key is the same after
    any history of the map. *)
Theorem routing_determinism m k :
  (1 ≤ length (map_sharded_t.shards_ m))%nat →
  let i := map_sharded_t.shard_index m (Hash k) in
  N.of_nat i = (Hash k mod N.of_nat (length (map_sharded_t.shards_ m)))%N
  ∧ (i < length (map_sharded_t.shards_ m))%nat
  ∧ (∃ s, map_sharded_t.shards_ m !! i = Some s
      ∧ map_sharded_t.find nullptr Hash k m = map_lock_t.find nullptr k s
      ∧ (∀ v, ∃ m',
           map_sharded_t.try_emplace Hash k v m
           = Ok (m', (map_lock_t.try_emplace k v s).2)
           ∧ map_sharded_t.shards_ m'
             = <[i := (map_lock_t.try_emplace k v s).1]> (map_sharded_t.shards_ m))
      ∧ (∃ m',
           map_sharded_t.erase Hash k m = Ok (m', (map_lock_t.erase k s).2)
           ∧ map_sharded_t.shards_ m'
             = <[i := (map_lock_t.erase k s).1]> (map_sharded_t.shards_ m)))
  ∧ (∀ ops m' evs,
       history.run nullptr Hash ops m = Ok (m', evs) →
       map_sharded_t.shard_index m' (Hash k) = i).
Proof.
  intros Hn i.
  assert (length (map_sharded_t.shards_ m) ≠ 0%nat) as Hn0 by lia.
  split_and!.
  - apply shard_index_mod.
  - by apply shard_index_lt.
  - destruct (find_shard nullptr Hash k m Hn0) as (s & Hs & Hfind).
    exists s. split_and!; [done..| |].
    + intros v. destruct (try_emplace_shard Hash k v m Hn0) as (s' & Hs' & ->).
      assert (s' = s) as -> by congruence. by eexists.
    + destruct (erase_shard Hash k m Hn0) as (s' & Hs' & ->).
      assert (s' = s) as -> by congruence. by eexists.
  - intros ops m' evs Hrun.
    destruct (run_spec _ _ _ _ _ _ Hrun) as (Hlen & _ & _).
    unfold i, map_sharded_t.shard_index. by rewrite Hlen.
Qed.

(** C5: with at least one shard, [try_emplace] returns what the owning
    shard's [try_emplace] returns and changes that shard only; the counter
    goes up by one when the flag is [true] and stays when it is [false];
    the flag is [true] exactly when the key was not in the shard; and for
    a key that is there the entry returned is the one the shard holds and
    the map, counter included, is as before. *)
Theorem try_emplace_delegates m k v :
  (1 ≤ length (map_sharded_t.shards_ m))%nat →
  ∃ s m' res,
    map_sharded_t.shards_ m !! map_sharded_t.shard_index m (Hash k) = Some s
    ∧ map_sharded_t.try_emplace Hash k v m = Ok (m', res)
    ∧ res = (map_lock_t.try_emplace k v s).2
    ∧ map_sharded_t.shards_ m'
      = <[map_sharded_t.shard_index m (Hash k) :=
            (map_lock_t.try_emplace k v s).1]> (map_sharded_t.shards_ m)
    ∧ (res.2 = true →
       map_sharded_t.size_ m' = Int.fetch_add (map_sharded_t.size_ m) 1
       ∧ (0 ≤ map_sharded_t.size_ m < 2 ^ 64 - 1 →
          map_sharded_t.size_ m' = map_sharded_t.size_ m + 1)
       ∧ map_sharded_t.live m' = map_sharded_t.live m + 1)
    ∧ (res.2 = false →
       map_sharded_t.size_ m' = map_sharded_t.size_ m
       ∧ map_sharded_t.live m' = map_sharded_t.live m)
    ∧ (res.2 = true ↔ Map.find k (map_lock_t.entries s) = None)
    ∧ (∀ e, Map.find k (map_lock_t.entries s) = Some e →
         res = (e, false) ∧ m' = m).
Proof.
  intros Hn.
  assert (length (map_sharded_t.shards_ m) ≠ 0%nat) as Hn0 by lia.
  destruct (try_emplace_shard Hash k v m Hn0) as (s & Hs & Hte).
  eexists s, _, _. split; [done|]. split; [exact Hte|].
  destruct (try_emplace_inv Hash _ _ _ _ _ Hte) as (_ & Hlive & _).
  simpl in Hlive. rewrite shard_try_emplace_entries in *. simpl in *.
  unfold Map.try_emplace in *.
  destruct (Map.find k (map_lock_t.entries s)) as [e|] eqn:Hfind; simpl in *.
  - split_and!; try done.
    + split; [done|lia].
    + intros e' [= <-]. split; [done|].
      assert (map_lock_t.MapLock (Some (map_lock_t.entries s)) = s) as ->.
      { destruct s as [[l|]]; [done|]. by simpl in Hfind. }
      rewrite list_insert_id by done. by destruct m.
  - split_and!; try done.
    intros _. split_and!; [done| |lia].
    intros Hr. unfold Int.fetch_add. apply to_size_t_small. lia.
Qed.

(** C4: a history that starts at a freshly constructed map and returns
    leaves as many entries as its inserting [try_emplace] calls (N) less
    the entries its removals took out (M), and the counter at that number
    as a [size_t]; so [size()] is N - M whenever N - M is a [size_t]
    value.  A history without [find] on a map with a shard does return. *)
Theorem counter_convergence (shard_num : nat) ops :
  (∀ m evs,
     history.run nullptr Hash ops (map_sharded_t.map_sharded_t shard_num)
     = Ok (m, evs) →
     map_sharded_t.live m = history.inserts evs - history.removals evs
     ∧ map_sharded_t.size m
       = Int.to_size_t (history.inserts evs - history.removals evs)
     ∧ (history.inserts evs - history.removals evs < 2 ^ 64 →
        map_sharded_t.size m = history.inserts evs - history.removals evs))
  ∧ ((1 ≤ shard_num)%nat →
     forallb (λ o, negb (history.is_find o)) ops = true →
     is_Ok (history.run nullptr Hash ops (map_sharded_t.map_sharded_t shard_num))
     = true).
Proof.
  split.
  - intros m evs Hrun.
    destruct (run_spec _ _ _ _ _ _ Hrun) as (_ & Hlive & Hinv).
    destruct (inv_constructed (key:=key) (mapped_type:=mapped_type) shard_num)
      as [Hinv0 Hlive0].
    rewrite Hlive0 in Hlive. simpl in Hlive.
    destruct (Hinv Hinv0) as [_ Hsz]. unfold map_sharded_t.size.
    rewrite Hsz, Hlive. split_and!; [done..|].
    intros Hlt. apply to_size_t_small.
    assert (0 ≤ map_sharded_t.live m) by (unfold map_sharded_t.live; lia).
    lia.
  - intros Hn Hops. apply run_total; [|done].
    simpl. rewrite length_replicate. lia.
Qed.
End routing_and_counter.

Lemma routing_determinism_witness :
  (1 ≤ length (map_sharded_t.shards_ sample.four_shards))%nat
  ∧ N.of_nat (map_sharded_t.shard_index sample.four_shards (sample.Hash 5)) = 1%N
  ∧ N.of_nat (map_sharded_t.shard_index sample.four_shards (sample.Hash 1)) = 1%N.
Proof.
  assert (1 ≤ length (map_sharded_t.shards_ sample.four_shards))%nat as Hn
    by (vm_compute; lia).
  split; [exact Hn|]. split.
  - destruct (routing_determinism sample.nullptr sample.Hash
                sample.four_shards 5%N Hn) as [-> _]. reflexivity.
  - destruct (routing_determinism sample.nullptr sample.Hash
                sample.four_shards 1%N Hn) as [-> _]. reflexivity.
Defined.

Lemma try_emplace_delegates_witness :
  (1 ≤ length (map_sharded_t.shards_ sample.four_shards))%nat
  ∧ map_sharded_t.try_emplace sample.Hash 5%N 77%N sample.four_shards
    = Ok (sample.four_shards, ((5%N, 50%N), false)).
Proof.
  assert (1 ≤ length (map_sharded_t.shards_ sample.four_shards))%nat as Hn
    by (vm_compute; lia).
  split; [exact Hn|].
  destruct (try_emplace_delegates sample.Hash sample.four_shards 5%N 77%N Hn)
    as (s & m' & res & Hs & -> & _ & _ & _ & _ & _ & Hex).
  vm_compute in Hs. injection Hs as <-.
  destruct (Hex (5%N, 50%N) eq_refl) as [-> ->]. reflexivity.
Defined.

Lemma counter_convergence_witness :
  map_sharded_t.size sample.after_scenario = 4%Z
  ∧ is_Ok (history.run sample.nullptr sample.Hash sample.scenario_history
             (map_sharded_t.map_sharded_t 4)) = true.
Proof.
  destruct (counter_convergence sample.nullptr sample.Hash 4
              sample.scenario_history) as [Hrun Htotal].
  split.
  - destruct (Hrun sample.after_scenario sample.scenario_events eq_refl)
      as (_ & _ & Hsz).
    apply Hsz. vm_compute. reflexivity.
  - apply Htotal; [lia | reflexivity].
Defined.

(** ** Snapshots *)

Section copy_facts.
Context {key : Type} `{!EqDecision key} {mapped_type : Type}.
Context (nullptr : mapped_type) (Hash : key → N).
Implicit Types (m : map_sharded_t.t key mapped_type).
Implicit Types (s : map_lock_t.t key mapped_type).
Implicit Types (p : mapped_type → bool).

(** the range-for with [copy]'s lambda appends the accepted mapped values *)
Lemma copy_loop p (l : Map.t key mapped_type) (ret : list mapped_type) :
  (map_lock_t.for_each_loop (as_visitor (map_sharded_t.copy_visitor p)) l ret).1.1.2
  = ret ++ List.filter p l.*2.
Proof.
  revert ret. induction l as [|e l IH]; intros ret; simpl.
  - by rewrite app_nil_r.
  - specialize (IH (if p e.2 then ret ++ [e.2] else ret)).
    destruct (map_lock_t.for_each_loop _ l _) as [[[l' a] tr] c]. simpl in *.
    rewrite IH. destruct (p e.2); [|done]. by rewrite <- app_assoc.
Qed.

Lemma copy_shard p s (ret : list mapped_type) :
  (map_lock_t.for_each_const (map_sharded_t.copy_visitor p) s ret).1.1
  = ret ++ List.filter p (map_lock_t.entries s).*2.
Proof.
  unfold map_lock_t.for_each_const, map_lock_t.for_each, map_lock_t.entries.
  destruct (map_lock_t.map_ s) as [l|]; simpl; [|by rewrite app_nil_r].
  pose proof (copy_loop p l ret) as Hl.
  by destruct (map_lock_t.for_each_loop _ l ret) as [[[l' a] tr] c].
Qed.

Lemma copy_shards p (ss : list (map_lock_t.t key mapped_type)) ret :
  fold_left
    (λ ret s, (map_lock_t.for_each_const (map_sharded_t.copy_visitor p) s ret).1.1)
    ss ret
  = ret ++ List.filter p (map_sharded_t.entries_of ss).*2.
Proof.
  revert ret. induction ss as [|s ss IH]; intros ret; simpl.
  - by rewrite app_nil_r.
  - rewrite IH, copy_shard, entries_of_cons, fmap_app, List.filter_app.
    by rewrite app_assoc.
Qed.

(** [copy(op)] is the mapped values [op] accepts, in shard order *)
Lemma copy_filter p m :
  map_sharded_t.copy p m = List.filter p (map_sharded_t.entries m).*2.
Proof. unfold map_sharded_t.copy. by rewrite copy_shards. Qed.

Lemma filter_true {A} (l : list A) : List.filter (λ _, true) l = l.
Proof. induction l as [|x l IH]; simpl; congruence. Qed.

(** C6: in a state the map reaches from its construction, [copy()] is
    the sequence of the mapped values of the entries, one for each entry
    and in shard order; and when the number of entries is a [size_t]
    value its length is [size()]. *)
Theorem copy_complete (shard_num : nat) m :
  history.reachable nullptr Hash shard_num m →
  (map_sharded_t.live m < 2 ^ 64)%Z →
  map_sharded_t.copy_all m = (map_sharded_t.entries m).*2
  ∧ Z.of_nat (length (map_sharded_t.copy_all m)) = map_sharded_t.size m.
Proof.
  intros Hreach Hlive.
  assert (map_sharded_t.copy_all m = (map_sharded_t.entries m).*2) as Hcopy.
  { unfold map_sharded_t.copy_all. by rewrite copy_filter, filter_true. }
  split; [done|].
  destruct (reachable_inv _ _ _ _ Hreach) as [[_ Hsz] _].
  unfold map_sharded_t.size. rewrite Hsz, Hcopy, length_fmap.
  symmetry. apply to_size_t_small.
  split; [apply Nat2Z.is_nonneg | exact Hlive].
Qed.

(** C10: [copy()] returns the sequence [copy(op)] returns for an [op]
    that accepts every mapped value. *)
Theorem copy_overloads_agree m p :
  (∀ v, p v = true) →
  map_sharded_t.copy_all m = map_sharded_t.copy p m.
Proof.
  intros Hp. unfold map_sharded_t.copy_all. rewrite !copy_filter, filter_true.
  induction (map_sharded_t.entries m).*2 as [|v l IH]; simpl; [done|].
  rewrite Hp. by f_equal.
Qed.
End copy_facts.

Lemma copy_overloads_agree_witness :
  (∀ v : N, (0 <=? v)%N = true)
  ∧ map_sharded_t.copy (λ v, (0 <=? v)%N) sample.four_shards
    = [40; 10; 50; 20; 30]%N.
Proof.
  assert (∀ v : N, (0 <=? v)%N = true) as Hp by (intros v; apply N.leb_le; lia).
  split; [exact Hp|].
  rewrite <- (copy_overloads_agree sample.four_shards (λ v, (0 <=? v)%N) Hp).
  reflexivity.
Defined.

Lemma copy_complete_witness :
  history.reachable sample.nullptr sample.Hash 4 sample.four_shards
  ∧ map_sharded_t.copy_all sample.four_shards = [40; 10; 50; 20; 30]%N
  ∧ map_sharded_t.size sample.four_shards = 5%Z.
Proof.
  assert (history.reachable sample.nullptr sample.Hash 4 sample.four_shards)
    as Hreach.
  { exists sample.four_shards_history, (repeat (history.Inserted true) 5).
    reflexivity. }
  split; [exact Hreach|].
  destruct (copy_complete sample.nullptr sample.Hash 4 sample.four_shards Hreach)
    as [Hcopy Hlen]; [vm_compute; reflexivity|].
  split; [rewrite Hcopy; reflexivity|].
  rewrite <- Hlen, Hcopy. reflexivity.
Defined.

(** ** Removal *)

Section removal_facts.
Context {key : Type} `{!EqDecision key} {mapped_type : Type}.
Context (nullptr : mapped_type) (Hash : key → N).
Implicit Types (m : map_sharded_t.t key mapped_type).
Implicit Types (s : map_lock_t.t key mapped_type) (k : key).
Implicit Types (ss : list (map_lock_t.t key mapped_type)).
Local Open Scope Z_scope.

Lemma shard_erase_none k s :
  k ∉ Map.keys (map_lock_t.entries s) → map_lock_t.erase k s = (s, 0).
Proof.
  intros Hk.
  assert (∀ e, e ∈ map_lock_t.entries s → Map.has_key k e = false) as Hno.
  { intros e He. unfold Map.has_key. apply bool_decide_eq_false. intros <-.
    apply Hk. by apply list_elem_of_fmap_2. }
  revert Hno. unfold map_lock_t.erase, map_lock_t.entries, Map.erase.
  destruct s as [[l|]]; simpl; [|done]. intros Hno.
  rewrite removed_filter, (filter_none _ l Hno).
  rewrite filter_all; [done|]. intros e He. by rewrite (Hno e He).
Qed.

Lemma keys_entries_of k s ss :
  s ∈ ss → k ∈ Map.keys (map_lock_t.entries s) →
  k ∈ Map.keys (map_sharded_t.entries_of ss).
Proof.
  unfold Map.keys. intros Hs Hk.
  apply list_elem_of_fmap in Hk as (e & -> & He).
  apply list_elem_of_fmap_2. by eapply elem_of_entries_of.
Qed.

(** what every shard sees of a stable predicate is its first answers *)
Lemma stable_forwarded (op : predicate key mapped_type) (moves : nat) :
  stable op → (∀ e, test op moves e = test op 0 e) →
  ∀ e, test op (forwarded op moves) e = test op 0 e.
Proof.
  intros [Hl|Hall] Hm e; [|apply Hall]. unfold forwarded. rewrite Hl. apply Hm.
Qed.

Lemma shard_erase_if_ext (op : predicate key mapped_type) (moves moves' : nat) s :
  (∀ e, test op moves e = test op moves' e) →
  (map_lock_t.erase_if op moves s).1 = (map_lock_t.erase_if op moves' s).1.
Proof.
  intros Hext. unfold map_lock_t.erase_if, Map.erase_if.
  destruct (map_lock_t.map_ s) as [l|]; simpl; [|done].
  assert (List.filter (λ e, negb (test op moves e)) l
          = List.filter (λ e, negb (test op moves' e)) l) as ->; [|done].
  apply List.filter_ext. intros e. by rewrite Hext.
Qed.

(** the state of the argument after a shard's [erase_if] keeps what the
    states before it had, when forwarding keeps it *)
Lemma shard_erase_if_state (op : predicate key mapped_type) (moves : nat) s
    (P : nat → Prop) :
  P moves → (∀ n, P n → P (forwarded op n)) →
  P (map_lock_t.erase_if op moves s).2.
Proof.
  intros Hm Hf. rewrite shard_erase_if_moves.
  destruct (map_lock_t.allocated s); auto.
Qed.

(** no entry that the predicate holds of in any state it is seen in:
    the loop of [erase_if] changes nothing *)
Lemma erase_if_loop_none (op : predicate key mapped_type) (P : nat → Prop)
    (moves : nat) ss total sz :
  P moves → (∀ n, P n → P (forwarded op n)) →
  (∀ n e, P n → e ∈ map_sharded_t.entries_of ss → test op n e = false) →
  - 2 ^ 31 ≤ total < 2 ^ 31 → 0 ≤ sz < 2 ^ 64 →
  map_sharded_t.erase_if_loop op moves ss total sz = (ss, total, sz).
Proof.
  intros Hm Hf Hno Ht Hsz. revert moves Hm.
  induction ss as [|s ss IH]; intros moves Hm; simpl; [done|].
  assert ((map_lock_t.erase_if op moves s).1 = (s, 0)) as Hs.
  { apply shard_erase_if_none. intros e He. apply Hno; [done|].
    rewrite entries_of_cons. apply elem_of_app. by left. }
  pose proof (shard_erase_if_state op moves s P Hm Hf) as Hm1.
  destruct (map_lock_t.erase_if op moves s) as [[s1 res] moves1].
  simpl in Hs, Hm1. injection Hs as -> ->.
  rewrite int_add_assign_zero by done.
  unfold Int.fetch_sub. rewrite Z.sub_0_r, to_size_t_small by done.
  rewrite IH; [done| |done]. intros n e Hn He. apply Hno; [done|].
  rewrite entries_of_cons. apply elem_of_app. by right.
Qed.

(** the loop of [erase_one] passes the shards the predicate holds of no
    entry of, leaving them as they are *)
Lemma erase_one_loop_none (op : predicate key mapped_type) (P : nat → Prop)
    (moves : nat) ss total sz :
  P moves → (∀ n, P n → P (forwarded op n)) →
  (∀ n e, P n → e ∈ map_sharded_t.entries_of ss → test op n e = false) →
  map_sharded_t.erase_one_loop op moves ss total sz = (ss, total, sz).
Proof.
  intros Hm Hf Hno. revert moves Hm.
  induction ss as [|s ss IH]; intros moves Hm; simpl; [done|].
  assert ((map_lock_t.erase_if op moves s).1 = (s, 0)) as Hs.
  { apply shard_erase_if_none. intros e He. apply Hno; [done|].
    rewrite entries_of_cons. apply elem_of_app. by left. }
  pose proof (shard_erase_if_state op moves s P Hm Hf) as Hm1.
  destruct (map_lock_t.erase_if op moves s) as [[s1 res] moves1].
  simpl in Hs, Hm1. injection Hs as -> ->.
  rewrite decide_False by (intros Hne; by apply Hne).
  rewrite IH; [done| |done]. intros n e Hn He. apply Hno; [done|].
  rewrite entries_of_cons. apply elem_of_app. by right.
Qed.

(** a stable predicate: the loop of [erase_one] stops at the first shard
    whose [erase_if] removes something, and the shards behind it are not
    touched *)
Lemma erase_one_loop_first (op : predicate key mapped_type) (moves : nat)
    pre s post total sz :
  stable op → (∀ e, test op moves e = test op 0 e) →
  (∀ e, e ∈ map_sharded_t.entries_of pre → test op 0 e = false) →
  (map_lock_t.erase_if op 0 s).1.2 ≠ 0 →
  map_sharded_t.erase_one_loop op moves (pre ++ s :: post) total sz
  = (pre ++ (map_lock_t.erase_if op 0 s).1.1 :: post,
     Int.int_add_assign total (map_lock_t.erase_if op 0 s).1.2,
     Int.fetch_sub sz (map_lock_t.erase_if op 0 s).1.2).
Proof.
  intros Hst Hm Hno Hres. revert moves Hm.
  induction pre as [|s0 pre IH]; intros moves Hm; simpl.
  - pose proof (shard_erase_if_ext op moves 0 s Hm) as Hext.
    destruct (map_lock_t.erase_if op moves s) as [[s1 res] moves1].
    destruct (map_lock_t.erase_if op 0 s) as [[s1' res'] moves1'].
    simpl in *. injection Hext as -> ->. by rewrite decide_True.
  - assert ((map_lock_t.erase_if op moves s0).1 = (s0, 0)) as Hs.
    { apply shard_erase_if_none. intros e He. rewrite Hm. apply Hno.
      rewrite entries_of_cons. apply elem_of_app. by left. }
    pose proof (shard_erase_if_state op moves s0
                  (λ n, ∀ e, test op n e = test op 0 e) Hm
                  (λ n, stable_forwarded op n Hst)) as Hm1.
    destruct (map_lock_t.erase_if op moves s0) as [[s1 res] moves1].
    simpl in Hs, Hm1. injection Hs as -> ->.
    rewrite decide_False by (intros Hne; by apply Hne).
    rewrite IH; [done| |done]. intros e He. apply Hno.
    rewrite entries_of_cons. apply elem_of_app. by right.
Qed.

(** [erase_one] with a stable predicate at the first shard with a match:
    that shard loses its matching entries, the other shards stay, the
    counter goes down by the shard's count, and the value returned is
    the count taken through [int total]; it is the count when the count
    is at most [INT_MAX] *)
Lemma erase_one_first (op : predicate key mapped_type) pre s post sz :
  stable op →
  (∀ e, e ∈ map_sharded_t.entries_of pre → test op 0 e = false) →
  (map_lock_t.erase_if op 0 s).1.2 ≠ 0 →
  map_sharded_t.erase_one op (map_sharded_t.MapSharded (pre ++ s :: post) sz)
  = (map_sharded_t.MapSharded (pre ++ (map_lock_t.erase_if op 0 s).1.1 :: post)
       (Int.fetch_sub sz (map_lock_t.erase_if op 0 s).1.2),
     Int.to_size_t (Int.int_add_assign 0 (map_lock_t.erase_if op 0 s).1.2))
  ∧ ((map_lock_t.erase_if op 0 s).1.2 ≤ Int.int_max →
     Int.to_size_t (Int.int_add_assign 0 (map_lock_t.erase_if op 0 s).1.2)
     = (map_lock_t.erase_if op 0 s).1.2).
Proof.
  intros Hst Hno Hres. split.
  - unfold map_sharded_t.erase_one. simpl.
    by rewrite erase_one_loop_first.
  - intros Hmax. apply int_total_small. split; [|done].
    apply shard_erase_if_nonneg.
Qed.

(** a stable predicate: the loop of [erase_if] takes out of every shard
    the entries the predicate holds of *)
Lemma erase_if_loop_entries (op : predicate key mapped_type) (moves : nat)
    ss total sz :
  stable op → (∀ e, test op moves e = test op 0 e) →
  map_sharded_t.entries_of (map_sharded_t.erase_if_loop op moves ss total sz).1.1
  = List.filter (λ e, negb (test op 0 e)) (map_sharded_t.entries_of ss).
Proof.
  intros Hst. revert moves total sz.
  induction ss as [|s ss IH]; intros moves total sz Hm; simpl; [done|].
  pose proof (shard_erase_if_entries op moves s) as [He _].
  pose proof (shard_erase_if_state op moves s
                (λ n, ∀ e, test op n e = test op 0 e) Hm
                (λ n, stable_forwarded op n Hst)) as Hm1.
  destruct (map_lock_t.erase_if op moves s) as [[s1 res] moves1].
  simpl in He, Hm1.
  specialize (IH moves1 (Int.int_add_assign total res) (Int.fetch_sub sz res) Hm1).
  destruct (map_sharded_t.erase_if_loop op moves1 ss _ _) as [[rest t] z].
  simpl in *. rewrite !entries_of_cons, List.filter_app, He, IH. f_equal.
  apply List.filter_ext. intros e. by rewrite Hm.
Qed.

Lemma erase_if_entries (op : predicate key mapped_type) m :
  stable op →
  map_sharded_t.entries (map_sharded_t.erase_if op m).1
  = List.filter (λ e, negb (test op 0 e)) (map_sharded_t.entries m).
Proof.
  intros Hst. unfold map_sharded_t.erase_if, map_sharded_t.entries.
  pose proof (erase_if_loop_entries op 0 (map_sharded_t.shards_ m) 0
                (map_sharded_t.size_ m) Hst (λ e, eq_refl)) as Hent.
  by destruct (map_sharded_t.erase_if_loop op 0 _ _ _) as [[ss t] z].
Qed.

(** the loop of [erase_if] adds up the shards' counts in [int total]:
    the sum comes out as long as it is at most [INT_MAX] *)
Lemma erase_if_loop_total (op : predicate key mapped_type) (moves : nat)
    ss total sz ss' total' sz' :
  map_sharded_t.erase_if_loop op moves ss total sz = (ss', total', sz') →
  0 ≤ total →
  total + (Z.of_nat (length (map_sharded_t.entries_of ss))
           - Z.of_nat (length (map_sharded_t.entries_of ss'))) ≤ Int.int_max →
  total' = total + (Z.of_nat (length (map_sharded_t.entries_of ss))
                    - Z.of_nat (length (map_sharded_t.entries_of ss'))).
Proof.
  revert moves total sz ss' total' sz'.
  induction ss as [|s ss IH]; intros moves total sz ss' total' sz'; simpl.
  - intros [= <- <- <-] _ _. simpl. lia.
  - destruct (map_lock_t.erase_if op moves s) as [[s1 res] moves1] eqn:Hs.
    destruct (map_sharded_t.erase_if_loop op moves1 ss _ _) as [[rest t] z] eqn:Hl.
    intros [= <- <- <-] Ht Hmax.
    pose proof (shard_erase_if_count op moves s) as Hc.
    pose proof (shard_erase_if_nonneg op moves s) as Hr.
    rewrite Hs in Hc, Hr. simpl in Hc, Hr.
    destruct (erase_if_loop_spec _ _ _ _ _ _ _ _ Hl) as (_ & _ & Hle & _ & _).
    rewrite !entries_of_cons, !length_app in Hmax |- *.
    assert (Int.int_add_assign total res = total + res) as Hadd.
    { unfold Int.int_max in Hmax. unfold Int.int_add_assign, Int.to_int.
      rewrite (to_size_t_small total) by lia.
      rewrite (to_size_t_small (total + res)) by lia.
      rewrite Z.mod_small by lia. lia. }
    rewrite Hadd in Hl. rewrite (IH _ _ _ _ _ _ Hl) by lia. lia.
Qed.

(** [erase_if] returns the number of entries it took out when that is
    at most [INT_MAX] *)
Lemma erase_if_returns_count (op : predicate key mapped_type) m :
  map_sharded_t.live m - map_sharded_t.live (map_sharded_t.erase_if op m).1
  ≤ Int.int_max →
  (map_sharded_t.erase_if op m).2
  = map_sharded_t.live m - map_sharded_t.live (map_sharded_t.erase_if op m).1.
Proof.
  unfold map_sharded_t.erase_if, map_sharded_t.live, map_sharded_t.entries.
  destruct (map_sharded_t.erase_if_loop op _ _ _ _) as [[ss total] sz] eqn:Hl.
  simpl. intros Hmax.
  pose proof (erase_if_loop_total _ _ _ _ _ _ _ _ Hl) as Ht.
  destruct (erase_if_loop_spec _ _ _ _ _ _ _ _ Hl) as (_ & _ & Hle & _ & _).
  rewrite Ht by lia. apply to_size_t_small. unfold Int.int_max in Hmax. lia.
Qed.

(** X18: in a state the map reaches from its construction, [erase] of a
    key returns 0 or 1, and returns 0 and leaves the map as it is when no
    entry has the key; [erase_if] and [erase_one] with a stable
    predicate (one passed as an lvalue, or one a move does not change)
    that holds of no entry return 0 and leave the map as it is. *)
Theorem removal_without_match_stable (shard_num : nat) m :
  history.reachable nullptr Hash shard_num m →
  (∀ k, (1 ≤ shard_num)%nat →
     ∃ m' c, map_sharded_t.erase Hash k m = Ok (m', c)
       ∧ (c = 0 ∨ c = 1)
       ∧ (k ∉ Map.keys (map_sharded_t.entries m) → c = 0 ∧ m' = m))
  ∧ (∀ op, stable op →
       (∀ e, e ∈ map_sharded_t.entries m → test op 0 e = false) →
       map_sharded_t.erase_if op m = (m, 0)
       ∧ map_sharded_t.erase_one op m = (m, 0)).
Proof.
  intros Hreach.
  destruct (reachable_inv _ _ _ _ Hreach) as [Hinv Hlen].
  pose proof (inv_size_range m Hinv) as Hrange. destruct Hinv as [Hwf Hsz].
  split.
  - intros k Hn.
    assert (length (map_sharded_t.shards_ m) ≠ 0%nat) as Hn0 by lia.
    destruct (erase_shard Hash k m Hn0) as (s & Hs & Her).
    eexists _, _. split; [exact Her|].
    assert (map_lock_t.wf s) as Hws by (by eapply Forall_lookup_1).
    split.
    + destruct (shard_erase_entries k s) as [_ ->].
      pose proof (unique_key_count k _ Hws). lia.
    + intros Hk. rewrite shard_erase_none.
      * simpl. split; [done|]. rewrite list_insert_id by done. by destruct m.
      * intros Hks. apply Hk. eapply keys_entries_of; [|done].
        by eapply list_elem_of_lookup_2.
  - intros op Hst Hno.
    assert (∀ n e, (∀ e0, test op n e0 = test op 0 e0) →
                   e ∈ map_sharded_t.entries_of (map_sharded_t.shards_ m) →
                   test op n e = false) as Hno'.
    { intros n e Hn He. rewrite Hn. by apply Hno. }
    split.
    + unfold map_sharded_t.erase_if.
      rewrite (erase_if_loop_none op (λ n, ∀ e, test op n e = test op 0 e));
        [by destruct m|done| |done|lia|done].
      intros n. by apply stable_forwarded.
    + unfold map_sharded_t.erase_one.
      rewrite (erase_one_loop_none op (λ n, ∀ e, test op n e = test op 0 e));
        [by destruct m|done| |done].
      intros n. by apply stable_forwarded.
Qed.
End removal_facts.

Lemma removal_without_match_stable_witness :
  history.reachable sample.nullptr sample.Hash 4 sample.four_shards
  ∧ map_sharded_t.erase sample.Hash 9%N sample.four_shards
    = Ok (sample.four_shards, 0%Z)
  ∧ map_sharded_t.erase_if (named (λ e, bool_decide (e.2 = 99%N)))
      sample.four_shards
    = (sample.four_shards, 0%Z).
Proof.
  assert (history.reachable sample.nullptr sample.Hash 4 sample.four_shards)
    as Hreach.
  { exists sample.four_shards_history, (repeat (history.Inserted true) 5).
    reflexivity. }
  split; [exact Hreach|].
  destruct (removal_without_match_stable sample.nullptr sample.Hash 4
              sample.four_shards Hreach) as [Herase Hif].
  split.
  - destruct (Herase 9%N) as (m' & c & -> & _ & Hk); [lia|].
    destruct Hk as [-> ->]; [|reflexivity].
    apply (bool_decide_unpack _). vm_compute. exact I.
  - apply Hif; [by left|]. apply Forall_forall.
    apply (bool_decide_unpack _). vm_compute. exact I.
Defined.

(** ** Where the code departs from its specification *)

Section departures.
Context {key : Type} `{!EqDecision key} {mapped_type : Type}.
Context (nullptr : mapped_type) (Hash : key → N).
Implicit Types (m : map_sharded_t.t key mapped_type).
Implicit Types (s : map_lock_t.t key mapped_type) (k : key).
Implicit Types (l : Map.t key mapped_type).

(** [find] of a key whose shard has no storage is the null handle *)
Lemma find_unallocated k m s :
  map_sharded_t.shards_ m !! map_sharded_t.shard_index m (Hash k) = Some s →
  map_lock_t.map_ s = None →
  map_sharded_t.find nullptr Hash k m = Ok nullptr.
Proof.
  intros Hs Hnone.
  assert (length (map_sharded_t.shards_ m) ≠ 0) as Hn.
  { apply lookup_lt_Some in Hs. lia. }
  destruct (find_shard nullptr Hash k m Hn) as (s' & Hs' & ->).
  assert (s' = s) as -> by congruence. by apply shard_find_unallocated.
Qed.

(** [find] of a key that is not in its shard's allocated map is undefined *)
Lemma find_absent_allocated k m s l :
  map_sharded_t.shards_ m !! map_sharded_t.shard_index m (Hash k) = Some s →
  map_lock_t.map_ s = Some l → k ∉ Map.keys l →
  map_sharded_t.find nullptr Hash k m = UB.
Proof.
  intros Hs Hl Hk.
  assert (length (map_sharded_t.shards_ m) ≠ 0) as Hn.
  { apply lookup_lt_Some in Hs. lia. }
  destruct (find_shard nullptr Hash k m Hn) as (s' & Hs' & ->).
  assert (s' = s) as -> by congruence.
  eapply shard_find_absent; [done|]. by apply find_None_keys.
Qed.

(** a visitor that never asks to stop is applied to every entry *)
Lemma for_each_loop_all {A} (vis : visitor key mapped_type A) l (a : A) :
  (∀ e a', (map_lock_t.for_each_body vis e a').2 = Normal) →
  (map_lock_t.for_each_loop vis l a).1.2 = l.
Proof.
  intros Hgo. revert a. induction l as [|e l IH]; intros a; simpl; [done|].
  specialize (Hgo e a).
  destruct (map_lock_t.for_each_body vis e a) as [[e' a'] c]. simpl in Hgo.
  subst c. specialize (IH a').
  destruct (map_lock_t.for_each_loop vis l a') as [[[l' a''] tr] c'].
  simpl in *. by rewrite IH.
Qed.

(** at the first entry where the visitor asks to stop the range-for is
    left: the entries behind it are not visited *)
Lemma for_each_loop_stops {A} (vis : visitor key mapped_type A) pre e post (a : A) :
  (∀ e0 a', e0 ∈ pre → (map_lock_t.for_each_body vis e0 a').2 = Normal) →
  (∀ a', (map_lock_t.for_each_body vis e a').2 = Break) →
  (map_lock_t.for_each_loop vis (pre ++ e :: post) a).1.2 = pre ++ [e].
Proof.
  intros Hgo Hstop. revert a. induction pre as [|e0 pre IH]; intros a; simpl.
  - specialize (Hstop a).
    destruct (map_lock_t.for_each_body vis e a) as [[e' a'] c]. simpl in Hstop.
    by subst c.
  - pose proof (Hgo e0 a ltac:(left)) as Hc.
    destruct (map_lock_t.for_each_body vis e0 a) as [[e' a'] c]. simpl in Hc.
    subst c.
    assert (∀ e1 a1, e1 ∈ pre → (map_lock_t.for_each_body vis e1 a1).2 = Normal)
      as Hgo' by (intros e1 a1 He1; apply Hgo; by right).
    specialize (IH Hgo' a').
    destruct (map_lock_t.for_each_loop vis _ a') as [[[l' a''] tr] c'].
    simpl in *. by rewrite IH.
Qed.

(** the loop over the shards never leaves early: every shard is visited *)
Lemma for_each_all_shards {A} (vis : visitor key mapped_type A)
    (ss : list (map_lock_t.t key mapped_type)) (a : A) :
  (map_sharded_t.for_each_loop vis ss a).2
  = (fix go ss a :=
       match ss with
       | [] => []
       | s :: rest =>
           (map_lock_t.for_each vis s a).1.2
           ++ go rest (map_lock_t.for_each vis s a).1.1.2
       end) ss a.
Proof.
  revert a. induction ss as [|s ss IH]; intros a; simpl; [done|].
  pose proof (shard_for_each_true vis s a) as Htrue.
  destruct (map_lock_t.for_each vis s a) as [[[s' a'] tr] b]. simpl in *.
  subst b. simpl. specialize (IH a').
  destruct (map_sharded_t.for_each_loop vis ss a') as [[ss' a''] tr'].
  simpl in *. by rewrite IH.
Qed.

(** with 2^31 entries in the one shard and a predicate that holds of
    all of them, the shard reports 2^31 and [erase_one] returns
    2^64 - 2^31 *)
Lemma erase_one_int_total l (sz : Z) :
  Z.of_nat (length l) = 2147483648%Z →
  (map_lock_t.erase_if (captureless (λ _, true)) 0
     (map_lock_t.MapLock (Some l))).1.2
  = 2147483648%Z
  ∧ (map_sharded_t.erase_one (captureless (λ _, true))
       (map_sharded_t.MapSharded [map_lock_t.MapLock (Some l)] sz)).2
    = 18446744071562067968%Z.
Proof.
  intros Hlen.
  assert ((map_lock_t.erase_if (captureless (λ _, true)) 0
             (map_lock_t.MapLock (Some l))).1.2
          = 2147483648%Z) as Hres.
  { destruct (shard_erase_if_entries (captureless (λ _, true)) 0
                (map_lock_t.MapLock (Some l))) as [_ ->].
    change (map_lock_t.entries (map_lock_t.MapLock (Some l))) with l.
    change (test (captureless (λ _, true)) 0) with (λ _ : Map.value_type key mapped_type, true).
    by rewrite filter_true. }
  split; [done|].
  destruct (erase_one_first (captureless (λ _, true)) []
              (map_lock_t.MapLock (Some l)) [] sz) as [Heq _].
  - by right.
  - intros e He. by apply elem_of_nil in He.
  - rewrite Hres. done.
  - cbn [app] in Heq. rewrite Heq. cbn [snd]. rewrite Hres. reflexivity.
Qed.
End departures.

(** C1: key 2 is not in the map whose one shard holds key 1; [find] of it
    compares no iterator with [end()] and dereferences [end()], which is
    undefined, where an empty handle is specified.  On the map without
    storage the same call returns the null handle. *)
Theorem find_absent_dereferences_end :
  (2%N ∉ Map.keys (map_sharded_t.entries sample.one_shard))
  ∧ map_sharded_t.find sample.nullptr sample.Hash 2%N sample.one_shard = UB
  ∧ map_sharded_t.find sample.nullptr sample.Hash 2%N
      (map_sharded_t.map_sharded_t 1) = Ok sample.nullptr.
Proof.
  split; [|split; reflexivity].
  apply (bool_decide_unpack _). vm_compute. exact I.
Qed.

(** C2: the visitor asks to stop at the first entry it sees.  The shard's
    [for_each] leaves its range-for there, yet returns [true], where
    [false] is specified; and the map's [for_each] goes on to the shards
    behind, where none of them should be visited: of the five entries in
    four shards, four are visited, one in each shard. *)
Theorem for_each_stop_not_reported :
  map_sharded_t.shards_ sample.four_shards
  = [map_lock_t.MapLock (Some [(4, 40)]);
     map_lock_t.MapLock (Some [(1, 10); (5, 50)]);
     map_lock_t.MapLock (Some [(2, 20)]);
     map_lock_t.MapLock (Some [(3, 30)])]%N
  ∧ map_lock_t.for_each sample.stop_at_once
      (map_lock_t.MapLock (Some [(1, 10); (5, 50)]%N)) []
    = (map_lock_t.MapLock (Some [(1, 10); (5, 50)]%N), [1%N], [(1, 10)%N], true)
  ∧ (map_sharded_t.for_each sample.stop_at_once sample.four_shards []).2
    = [(4, 40); (1, 10); (2, 20); (3, 30)]%N.
Proof. split_and!; reflexivity. Qed.

(** C7: one shard holds 2^31 entries and the predicate holds of all of
    them.  The shard's [erase_if] removes 2^31 entries; [erase_one] adds
    that count to an [int] and returns 2^64 - 2^31, where the shard's
    count is specified. *)
Theorem erase_one_count_through_int :
  (map_lock_t.erase_if (captureless (λ _, true)) 0
     (map_lock_t.MapLock (Some sample.many_entries))).1.2 = 2147483648%Z
  ∧ (map_sharded_t.erase_one (captureless (λ _, true)) sample.crowded).2
    = 18446744071562067968%Z.
Proof.
  apply erase_one_int_total.
  unfold sample.many_entries. rewrite length_fmap, length_seq.
  unfold sample.many. apply Z2Nat.id. done.
Qed.

(** C8: the predicate is a temporary closure that has captured the
    handle 99, and no entry of the map has that handle.  [erase_if] and
    [erase_one] forward it to every shard: shard 0 has storage, so the
    closure is moved into [std::erase_if] there, and shard 1 is filtered
    by the moved-from closure, whose captured handle is null.  The entry
    of key 1, whose handle is null, is removed and both functions return
    1, where 0 is specified.  The same predicate passed as an lvalue
    removes nothing and returns 0. *)
Theorem erase_if_moved_from_predicate :
  (∀ e, e ∈ map_sharded_t.entries sample.with_null →
        test (sample.handle_is 99) 0 e = false)
  ∧ map_sharded_t.erase_if (sample.handle_is 99) sample.with_null
    = (map_sharded_t.MapSharded
         [map_lock_t.MapLock (Some [(0, 10)]%N); map_lock_t.MapLock (Some [])] 1,
       1%Z)
  ∧ map_sharded_t.erase_one (sample.handle_is 99) sample.with_null
    = (map_sharded_t.MapSharded
         [map_lock_t.MapLock (Some [(0, 10)]%N); map_lock_t.MapLock (Some [])] 1,
       1%Z)
  ∧ map_sharded_t.erase_if (named (test (sample.handle_is 99) 0)) sample.with_null
    = (sample.with_null, 0%Z).
Proof.
  split_and!; [|reflexivity..].
  apply Forall_forall. apply (bool_decide_unpack _). vm_compute. exact I.
Qed.

(** * Further properties of the code *)

(** ** Lookup after insertion and after removal *)

Section map_round_trips.
Context {key : Type} `{!EqDecision key} {mapped_type : Type}.
Implicit Types (l : Map.t key mapped_type) (e : Map.value_type key mapped_type).
Implicit Types (k : key) (v : mapped_type).

Lemma has_key_false k e : Map.has_key k e = false ↔ e.1 ≠ k.
Proof. unfold Map.has_key. by rewrite bool_decide_eq_false. Qed.

Lemma find_app_new k v l :
  Map.find k l = None → Map.find k (l ++ [(k, v)]) = Some (k, v).
Proof.
  unfold Map.find. induction l as [|e l IH]; simpl.
  - intros _. unfold Map.has_key. simpl. by rewrite bool_decide_eq_true_2.
  - destruct (Map.has_key k e); [done|]. exact IH.
Qed.

Lemma find_try_emplace k v l :
  Map.find k (Map.try_emplace k v l).1 = Some (Map.try_emplace k v l).2.1.
Proof.
  unfold Map.try_emplace. destruct (Map.find k l) as [e|] eqn:Hf; simpl.
  - done.
  - by apply find_app_new.
Qed.

Lemma find_erased k l :
  Map.find k (List.filter (λ e, negb (Map.has_key k e)) l) = None.
Proof.
  unfold Map.find. induction l as [|e l IH]; simpl; [done|].
  destruct (Map.has_key k e) eqn:Hk; simpl; [done|]. by rewrite Hk.
Qed.

Lemma filter_out_absent k l :
  k ∉ Map.keys l → List.filter (λ e, negb (Map.has_key k e)) l = l.
Proof.
  intros Hk. apply filter_all. intros e He. apply negb_true_iff, has_key_false.
  intros <-. apply Hk. by apply list_elem_of_fmap_2.
Qed.

Lemma filter_out_new k v l :
  k ∉ Map.keys l →
  List.filter (λ e, negb (Map.has_key k e)) (l ++ [(k, v)]) = l.
Proof.
  intros Hk. rewrite List.filter_app, filter_out_absent by done. simpl.
  unfold Map.has_key. simpl. rewrite bool_decide_eq_true_2 by done. simpl.
  apply app_nil_r.
Qed.

(** with unique keys, the entry found for a key is the entry stored *)
Lemma find_stored k v l :
  NoDup (Map.keys l) → (k, v) ∈ l → Map.find k l = Some (k, v).
Proof.
  unfold Map.find, Map.keys. induction l as [|e l IH]; simpl.
  - intros _ Hin. by apply elem_of_nil in Hin.
  - rewrite NoDup_cons. intros [Hn Hl] Hin.
    apply elem_of_cons in Hin as [<- | Hin].
    + unfold Map.has_key. simpl. by rewrite bool_decide_eq_true_2.
    + destruct (Map.has_key k e) eqn:Hk; [|by apply IH].
      apply has_key_true in Hk. exfalso. apply Hn. rewrite Hk.
      by apply (list_elem_of_fmap_2 fst l (k, v)).
Qed.
End map_round_trips.

Section round_trips.
Context {key : Type} `{!EqDecision key} {mapped_type : Type}.
Context (nullptr : mapped_type) (Hash : key → N).
Implicit Types (m : map_sharded_t.t key mapped_type).
Implicit Types (s : map_lock_t.t key mapped_type) (k : key) (v : mapped_type).
Implicit Types (ss : list (map_lock_t.t key mapped_type)).
Local Open Scope Z_scope.

Lemma entries_of_insert_same ss (i : nat) s s' :
  ss !! i = Some s → map_lock_t.entries s' = map_lock_t.entries s →
  map_sharded_t.entries_of (<[i:=s']> ss) = map_sharded_t.entries_of ss.
Proof.
  revert i. induction ss as [|s0 ss IH]; intros i Hi He; [done|].
  destruct i as [|i]; simpl in Hi |- *.
  - injection Hi as ->. by rewrite !entries_of_cons, He.
  - rewrite !entries_of_cons. by rewrite (IH i).
Qed.

(** the index of a key is the same in a map with as many shards *)
Lemma shard_index_length m m' (h : N) :
  length (map_sharded_t.shards_ m') = length (map_sharded_t.shards_ m) →
  map_sharded_t.shard_index m' h = map_sharded_t.shard_index m h.
Proof. unfold map_sharded_t.shard_index. by intros ->. Qed.

(** the shard [find] reads after a call that replaced the key's shard *)
Lemma find_after_insert k m s s' sz :
  map_sharded_t.shards_ m !! map_sharded_t.shard_index m (Hash k) = Some s →
  map_sharded_t.find nullptr Hash k
    (map_sharded_t.MapSharded
       (<[map_sharded_t.shard_index m (Hash k) := s']> (map_sharded_t.shards_ m)) sz)
  = map_lock_t.find nullptr k s'.
Proof.
  intros Hs. pose proof (lookup_lt_Some _ _ _ Hs) as Hlt.
  set (m' := map_sharded_t.MapSharded _ sz).
  assert (length (map_sharded_t.shards_ m') = length (map_sharded_t.shards_ m))
    as Hlen by apply length_insert.
  assert (length (map_sharded_t.shards_ m') ≠ 0%nat) as Hn by lia.
  destruct (find_shard nullptr Hash k m' Hn) as (s1 & Hs1 & ->).
  rewrite (shard_index_length m m' _ Hlen) in Hs1. unfold m' in Hs1. simpl in Hs1.
  rewrite list_lookup_insert_eq in Hs1 by done. by injection Hs1 as <-.
Qed.

(** X1: after [try_emplace(k, ...)] returns, [find(k)] returns the mapped
    value of the entry [try_emplace] returned: the new value when the
    call inserted, the value already stored when it did not.  The entry
    returned has key [k]. *)
Theorem find_after_try_emplace k v m m' e (inserted : bool) :
  map_sharded_t.try_emplace Hash k v m = Ok (m', (e, inserted)) →
  e.1 = k
  ∧ (inserted = true → e = (k, v))
  ∧ map_sharded_t.find nullptr Hash k m' = Ok e.2.
Proof.
  intros Hte.
  destruct (decide (length (map_sharded_t.shards_ m) = 0%nat)) as [Hn|Hn].
  { unfold map_sharded_t.try_emplace in Hte.
    by rewrite get_sharded_empty in Hte. }
  destruct (try_emplace_shard Hash k v m Hn) as (s & Hs & Heq).
  rewrite Heq in Hte. injection Hte as <- Hres.
  rewrite shard_try_emplace_entries in Hres |- *. simpl in Hres |- *.
  pose proof (find_try_emplace k v (map_lock_t.entries s)) as Hfind.
  rewrite Hres in Hfind. simpl in Hfind.
  split_and!.
  - by apply find_Some_key in Hfind as [_ ?].
  - intros ->. unfold Map.try_emplace in Hres.
    destruct (Map.find k (map_lock_t.entries s)); simpl in Hres; congruence.
  - rewrite (find_after_insert k m s) by done.
    by erewrite shard_find_present.
Qed.

(** X2: [erase(k)] right after a [try_emplace(k, ...)] that inserted
    returns 1 and takes the map back to the entries it had before the
    insertion, in whatever order the map now iterates them, and to the
    counter it had. *)
Theorem erase_after_try_emplace k v m m' e :
  0 ≤ map_sharded_t.size_ m < 2 ^ 64 →
  map_sharded_t.try_emplace Hash k v m = Ok (m', (e, true)) →
  ∃ m'', map_sharded_t.erase Hash k m' = Ok (m'', 1)
    ∧ map_sharded_t.entries m'' ≡ₚ map_sharded_t.entries m
    ∧ map_sharded_t.size m'' = map_sharded_t.size m
    ∧ length (map_sharded_t.shards_ m'') = length (map_sharded_t.shards_ m).
Proof.
  intros Hsz Hte.
  destruct (decide (length (map_sharded_t.shards_ m) = 0%nat)) as [Hn|Hn].
  { unfold map_sharded_t.try_emplace in Hte.
    by rewrite get_sharded_empty in Hte. }
  destruct (try_emplace_shard Hash k v m Hn) as (s & Hs & Heq).
  rewrite Heq in Hte. injection Hte as <- Hres.
  rewrite shard_try_emplace_entries in Hres |- *. simpl in Hres |- *.
  rewrite Hres. simpl. clear Heq.
  unfold Map.try_emplace in Hres |- *.
  destruct (Map.find k (map_lock_t.entries s)) eqn:Hfind; simpl in Hres; [done|].
  simpl. apply find_None_keys in Hfind.
  pose proof (lookup_lt_Some _ _ _ Hs) as Hlt.
  set (i := map_sharded_t.shard_index m (Hash k)) in *.
  set (s1 := map_lock_t.MapLock (Some (map_lock_t.entries s ++ [(k, v)]))).
  set (m1 := map_sharded_t.MapSharded (<[i:=s1]> (map_sharded_t.shards_ m))
               (Int.fetch_add (map_sharded_t.size_ m) 1)).
  assert (length (map_sharded_t.shards_ m1) = length (map_sharded_t.shards_ m))
    as Hlen by apply length_insert.
  assert (length (map_sharded_t.shards_ m1) ≠ 0%nat) as Hn1 by lia.
  destruct (erase_shard Hash k m1 Hn1) as (s2 & Hs2 & Her).
  rewrite (shard_index_length m m1 _ Hlen) in Hs2, Her. fold i in Hs2, Her.
  unfold m1 in Hs2. simpl in Hs2.
  rewrite list_lookup_insert_eq in Hs2 by done. injection Hs2 as <-.
  assert (map_lock_t.erase k s1
          = (map_lock_t.MapLock (Some (map_lock_t.entries s)), 1)) as Hes.
  { unfold map_lock_t.erase, s1, Map.erase. simpl.
    rewrite filter_out_new by done. f_equal.
    unfold Map.removed. rewrite length_app. simpl. lia. }
  rewrite Hes in Her. simpl in Her.
  eexists. split; [exact Her|]. simpl. split_and!.
  - unfold map_sharded_t.entries. simpl. rewrite list_insert_insert_eq.
    by rewrite (entries_of_insert_same _ i s).
  - unfold map_sharded_t.size. simpl. unfold Int.fetch_sub, Int.fetch_add.
    rewrite to_size_t_idemp_sub. rewrite to_size_t_small; lia.
  - by rewrite !length_insert.
Qed.

(** X3: after an [erase(k)] that removed the entry, [find(k)] is not the
    null handle but undefined: the shard keeps its storage, the key is
    no longer in it, and [find] dereferences [end()]. *)
Theorem find_after_erase k m m' (c : Z) :
  map_sharded_t.erase Hash k m = Ok (m', c) → c ≠ 0 →
  map_sharded_t.find nullptr Hash k m' = UB.
Proof.
  intros Her Hc.
  destruct (decide (length (map_sharded_t.shards_ m) = 0%nat)) as [Hn|Hn].
  { unfold map_sharded_t.erase in Her. by rewrite get_sharded_empty in Her. }
  destruct (erase_shard Hash k m Hn) as (s & Hs & Heq).
  rewrite Heq in Her. injection Her as <- <-.
  rewrite (find_after_insert k m s) by done.
  unfold map_lock_t.erase in Hc |- *.
  destruct (map_lock_t.map_ s) as [l|] eqn:Hl; simpl in Hc |- *; [|done].
  eapply shard_find_absent; [done|]. apply find_erased.
Qed.

(** X4: [find(k)] returns exactly when the map has a shard and the
    key's shard either has no storage or holds the key; in every other
    case (no shard, or storage without the key) it is undefined. *)
Theorem find_defined_iff k m :
  is_Ok (map_sharded_t.find nullptr Hash k m) = true
  ↔ ∃ s, map_sharded_t.shards_ m !! map_sharded_t.shard_index m (Hash k) = Some s
         ∧ (map_lock_t.map_ s = None ∨ k ∈ Map.keys (map_lock_t.entries s)).
Proof.
  destruct (decide (length (map_sharded_t.shards_ m) = 0%nat)) as [Hn|Hn].
  { unfold map_sharded_t.find. rewrite get_sharded_empty by done. simpl.
    split; [done|]. intros (s & Hs & _). apply lookup_lt_Some in Hs. lia. }
  destruct (find_shard nullptr Hash k m Hn) as (s & Hs & ->).
  unfold map_lock_t.find, map_lock_t.entries.
  destruct (map_lock_t.map_ s) as [l|] eqn:Hl.
  - destruct (Map.find k l) as [e|] eqn:Hf; simpl.
    + split; [|done]. intros _. exists s. split; [done|]. right. rewrite Hl.
      apply find_Some_key in Hf as [He <-]. by apply list_elem_of_fmap_2.
    + split; [done|]. intros (s' & Hs' & Hor).
      assert (s' = s) as -> by congruence. rewrite Hl in Hor.
      destruct Hor as [?|Hk]; [done|]. by apply find_None_keys in Hf.
  - simpl. split; [|done]. intros _. exists s. auto.
Qed.
End round_trips.

(** ** Where the keys are *)

Section routing_facts.
Context {key : Type} `{!EqDecision key} {mapped_type : Type}.
Context (nullptr : mapped_type) (Hash : key → N).
Implicit Types (m : map_sharded_t.t key mapped_type).
Implicit Types (s : map_lock_t.t key mapped_type) (k : key) (v : mapped_type).
Implicit Types (ss : list (map_lock_t.t key mapped_type)).
Implicit Types (p : predicate key mapped_type).

Lemma within_refl ss : routing.within ss ss.
Proof. intros j s Hs. exists s. auto. Qed.

Lemma within_cons s s' ss ss' :
  (∀ k, k ∈ Map.keys (map_lock_t.entries s') → k ∈ Map.keys (map_lock_t.entries s)) →
  routing.within ss ss' → routing.within (s :: ss) (s' :: ss').
Proof.
  intros Hk Hw [|j] s1; simpl.
  - intros [= <-]. exists s. auto.
  - apply Hw.
Qed.

Lemma within_insert ss (i : nat) s s' :
  ss !! i = Some s →
  (∀ k, k ∈ Map.keys (map_lock_t.entries s') → k ∈ Map.keys (map_lock_t.entries s)) →
  routing.within ss (<[i:=s']> ss).
Proof.
  intros Hi Hk j s1 Hj. destruct (decide (i = j)) as [<-|Hne].
  - rewrite list_lookup_insert_eq in Hj by (by eapply lookup_lt_Some).
    injection Hj as <-. exists s. auto.
  - rewrite list_lookup_insert_ne in Hj by done. exists s1. auto.
Qed.

Lemma routed_within m m' :
  length (map_sharded_t.shards_ m') = length (map_sharded_t.shards_ m) →
  routing.within (map_sharded_t.shards_ m) (map_sharded_t.shards_ m') →
  routing.routed Hash m → routing.routed Hash m'.
Proof.
  intros Hlen Hw Hr j s' k Hs' Hk.
  destruct (Hw j s' Hs') as (s & Hs & Hsub).
  rewrite (shard_index_length m m' _ Hlen). eapply Hr; [done|]. by apply Hsub.
Qed.

Lemma shard_erase_if_keys p (moves : nat) s k :
  k ∈ Map.keys (map_lock_t.entries (map_lock_t.erase_if p moves s).1.1) →
  k ∈ Map.keys (map_lock_t.entries s).
Proof.
  destruct (shard_erase_if_entries p moves s) as [-> _]. apply filter_keys_subset.
Qed.

Lemma shard_erase_keys k0 s k :
  k ∈ Map.keys (map_lock_t.entries (map_lock_t.erase k0 s).1) →
  k ∈ Map.keys (map_lock_t.entries s).
Proof.
  destruct (shard_erase_entries k0 s) as [-> _]. apply filter_keys_subset.
Qed.

Lemma erase_if_loop_within p (moves : nat) ss total sz :
  routing.within ss (map_sharded_t.erase_if_loop p moves ss total sz).1.1.
Proof.
  revert moves total sz. induction ss as [|s ss IH]; intros moves total sz; simpl.
  - apply within_refl.
  - pose proof (shard_erase_if_keys p moves s) as Hk.
    destruct (map_lock_t.erase_if p moves s) as [[s1 res] moves1]. simpl in Hk.
    specialize (IH moves1 (Int.int_add_assign total res) (Int.fetch_sub sz res)).
    destruct (map_sharded_t.erase_if_loop p moves1 ss _ _) as [[rest t] z].
    simpl in *. by apply within_cons.
Qed.

Lemma erase_one_loop_within p (moves : nat) ss total sz :
  routing.within ss (map_sharded_t.erase_one_loop p moves ss total sz).1.1.
Proof.
  revert moves. induction ss as [|s ss IH]; intros moves; simpl.
  - apply within_refl.
  - pose proof (shard_erase_if_keys p moves s) as Hk.
    destruct (map_lock_t.erase_if p moves s) as [[s1 res] moves1]. simpl in Hk.
    destruct (decide (res ≠ 0%Z)); simpl.
    + apply within_cons; [done | apply within_refl].
    + specialize (IH moves1).
      destruct (map_sharded_t.erase_one_loop p moves1 ss total sz) as [[rest t] z].
      simpl in *. by apply within_cons.
Qed.

Lemma for_each_loop_within {A} (vis : visitor key mapped_type A) ss (a : A) :
  routing.within ss (map_sharded_t.for_each_loop vis ss a).1.1.
Proof.
  revert a. induction ss as [|s ss IH]; intros a; simpl.
  - apply within_refl.
  - pose proof (shard_for_each_keys vis s a) as Hk.
    destruct (map_lock_t.for_each vis s a) as [[[s1 a1] tr] b]. simpl in Hk.
    destruct b; simpl.
    + specialize (IH a1).
      destruct (map_sharded_t.for_each_loop vis ss a1) as [[rest a2] tr2].
      simpl in *. apply within_cons; [|done]. intros k. by rewrite Hk.
    + apply within_cons; [|apply within_refl]. intros k. by rewrite Hk.
Qed.

Lemma try_emplace_routed k v m m' res :
  map_sharded_t.try_emplace Hash k v m = Ok (m', res) →
  routing.routed Hash m → routing.routed Hash m'.
Proof.
  intros Hte Hr.
  destruct (try_emplace_inv Hash _ _ _ _ _ Hte) as (Hlen & _ & _).
  destruct (decide (length (map_sharded_t.shards_ m) = 0)) as [Hn|Hn].
  { unfold map_sharded_t.try_emplace in Hte.
    by rewrite get_sharded_empty in Hte. }
  destruct (try_emplace_shard Hash k v m Hn) as (s & Hs & Heq).
  rewrite Heq in Hte. injection Hte as <- _.
  intros j s1 k1 Hj Hk1. rewrite (shard_index_length m _ _ Hlen).
  simpl in Hj. destruct (decide (map_sharded_t.shard_index m (Hash k) = j)) as [<-|Hne].
  - rewrite list_lookup_insert_eq in Hj by (by eapply lookup_lt_Some).
    injection Hj as <-. rewrite shard_try_emplace_entries in Hk1. simpl in Hk1.
    change (map_lock_t.entries (map_lock_t.MapLock (Some ?x))) with x in Hk1.
    unfold Map.try_emplace in Hk1.
    destruct (Map.find k (map_lock_t.entries s)); simpl in Hk1.
    + by eapply Hr.
    + unfold Map.keys in Hk1. rewrite fmap_app in Hk1.
      apply elem_of_app in Hk1 as [Hk1|Hk1]; [by eapply Hr|].
      simpl in Hk1. apply list_elem_of_singleton in Hk1. by subst k1.
  - rewrite list_lookup_insert_ne in Hj by done. by eapply Hr.
Qed.

Lemma step_routed o m m' ev :
  history.step nullptr Hash o m = Ok (m', ev) →
  routing.routed Hash m → routing.routed Hash m'.
Proof.
  intros Hstep. destruct (step_spec _ _ _ _ _ _ Hstep) as (Hlen & _ & _).
  revert Hstep. destruct o as [k v|k|p|p|k|vis|p]; simpl.
  - destruct (map_sharded_t.try_emplace Hash k v m) as [[m1 res]|] eqn:Hte;
      simpl; [|done].
    intros [= <- <-]. by eapply try_emplace_routed.
  - destruct (map_sharded_t.erase Hash k m) as [[m1 res]|] eqn:Her;
      simpl; [|done].
    intros [= <- <-]. apply routed_within; [done|].
    destruct (decide (length (map_sharded_t.shards_ m) = 0)) as [Hn|Hn].
    { unfold map_sharded_t.erase in Her. by rewrite get_sharded_empty in Her. }
    destruct (erase_shard Hash k m Hn) as (s & Hs & Heq).
    rewrite Heq in Her. injection Her as <- _. simpl.
    eapply within_insert; [done|]. apply shard_erase_keys.
  - intros [= <- <-]. apply routed_within; [done|].
    unfold map_sharded_t.erase_if.
    pose proof (erase_if_loop_within p 0 (map_sharded_t.shards_ m) 0
                  (map_sharded_t.size_ m)) as Hw.
    by destruct (map_sharded_t.erase_if_loop p _ _ _ _) as [[ss t] z].
  - intros [= <- <-]. apply routed_within; [done|].
    unfold map_sharded_t.erase_one.
    pose proof (erase_one_loop_within p 0 (map_sharded_t.shards_ m) 0
                  (map_sharded_t.size_ m)) as Hw.
    by destruct (map_sharded_t.erase_one_loop p _ _ _ _) as [[ss t] z].
  - destruct (map_sharded_t.find nullptr Hash k m); simpl; [|done].
    by intros [= <- <-].
  - intros [= <- <-]. apply routed_within; [done|].
    unfold map_sharded_t.for_each.
    pose proof (for_each_loop_within vis (map_sharded_t.shards_ m) ()) as Hw.
    by destruct (map_sharded_t.for_each_loop vis _ _) as [[ss a] tr].
  - by intros [= <- <-].
Qed.

Lemma run_routed ops m m' evs :
  history.run nullptr Hash ops m = Ok (m', evs) →
  routing.routed Hash m → routing.routed Hash m'.
Proof.
  revert m m' evs. induction ops as [|o ops IH]; intros m m' evs; simpl.
  - by intros [= <- <-].
  - destruct (history.step nullptr Hash o m) as [[m1 ev]|] eqn:Hstep;
      simpl; [|done].
    destruct (history.run nullptr Hash ops m1) as [[m2 evs2]|] eqn:Hrun;
      simpl; [|done].
    intros [= <- <-] Hr. eapply IH; [done|]. by eapply step_routed.
Qed.

Lemma constructed_routed (shard_num : nat) :
  routing.routed Hash (@map_sharded_t.map_sharded_t key mapped_type shard_num).
Proof.
  intros j s k Hs Hk. simpl in Hs.
  apply lookup_replicate in Hs as [-> _]. by apply elem_of_nil in Hk.
Qed.

(** an entry of the map is an entry of one of its shards *)
Lemma elem_of_entries_of_inv e ss :
  e ∈ map_sharded_t.entries_of ss →
  ∃ (j : nat) s, ss !! j = Some s ∧ e ∈ map_lock_t.entries s.
Proof.
  induction ss as [|s ss IH]; [by intros ?%elem_of_nil|].
  rewrite entries_of_cons, elem_of_app. intros [He|He].
  - by exists 0, s.
  - destruct (IH He) as (j & s' & Hj & He'). by exists (S j), s'.
Qed.

(** shards whose keys go to different places share no key *)
Lemma entries_of_keys_NoDup (f : key → nat) (i0 : nat) ss :
  (∀ (j : nat) s k, ss !! j = Some s →
     k ∈ Map.keys (map_lock_t.entries s) → f k = i0 + j) →
  Forall map_lock_t.wf ss →
  NoDup (Map.keys (map_sharded_t.entries_of ss)).
Proof.
  revert i0. induction ss as [|s ss IH]; intros i0 Hf Hwf.
  - apply NoDup_nil_2.
  - apply Forall_cons in Hwf as [Hs Hwf].
    rewrite entries_of_cons. unfold Map.keys. rewrite fmap_app.
    apply NoDup_app. split_and!.
    + exact Hs.
    + intros k Hk Hk'.
      apply list_elem_of_fmap in Hk' as (e & -> & He).
      apply elem_of_entries_of_inv in He as (j & s' & Hj & He).
      pose proof (Hf 0 s e.1 eq_refl Hk) as H0.
      pose proof (Hf (S j) s' e.1 Hj (list_elem_of_fmap_2 fst _ e He)) as H1.
      lia.
    + apply (IH (S i0)); [|done]. intros j s' k Hj Hk.
      rewrite (Hf (S j) s' k Hj Hk). lia.
Qed.

(** X5: in a state the map reaches from its construction every key is
    stored in the shard its hash selects, and no key is stored twice,
    neither in one shard nor in two. *)
Theorem reachable_keys_routed (shard_num : nat) m :
  history.reachable nullptr Hash shard_num m →
  routing.routed Hash m ∧ NoDup (Map.keys (map_sharded_t.entries m)).
Proof.
  intros Hreach.
  destruct (reachable_inv _ _ _ _ Hreach) as [[Hwf _] _].
  destruct Hreach as (ops & evs & Hrun).
  assert (routing.routed Hash m) as Hr.
  { eapply run_routed; [done|]. apply constructed_routed. }
  split; [done|].
  apply (entries_of_keys_NoDup
           (λ k, map_sharded_t.shard_index m (Hash k)) 0); [|done].
  intros j s k Hj Hk. by apply (Hr j s k).
Qed.

(** X6: in a state the map reaches from its construction, [find] of the
    key of an entry returns that entry's mapped value. *)
Theorem find_stored_value (shard_num : nat) m k v :
  history.reachable nullptr Hash shard_num m →
  (k, v) ∈ map_sharded_t.entries m →
  map_sharded_t.find nullptr Hash k m = Ok v.
Proof.
  intros Hreach Hin.
  destruct (reachable_inv _ _ _ _ Hreach) as [[Hwf _] _].
  destruct Hreach as (ops & evs & Hrun).
  assert (routing.routed Hash m) as Hr.
  { eapply run_routed; [done|]. apply constructed_routed. }
  apply elem_of_entries_of_inv in Hin as (j & s & Hj & He).
  assert (map_sharded_t.shard_index m (Hash k) = j) as Hidx.
  { apply (Hr j s k Hj). by apply (list_elem_of_fmap_2 fst _ (k, v)). }
  assert (length (map_sharded_t.shards_ m) ≠ 0) as Hn.
  { apply lookup_lt_Some in Hj. lia. }
  destruct (find_shard nullptr Hash k m Hn) as (s' & Hs' & ->).
  rewrite Hidx in Hs'. assert (s' = s) as -> by congruence.
  assert (map_lock_t.wf s) as Hws by (by eapply Forall_lookup_1).
  unfold map_lock_t.wf, map_lock_t.entries in *.
  destruct (map_lock_t.map_ s) as [l|] eqn:Hl; [|by apply elem_of_nil in He].
  by erewrite shard_find_present; [|done|by apply find_stored].
Qed.
End routing_facts.

(** ** What the removals take out *)

Section removal_effects.
Context {key : Type} `{!EqDecision key} {mapped_type : Type}.
Context (nullptr : mapped_type) (Hash : key → N).
Implicit Types (m : map_sharded_t.t key mapped_type).
Implicit Types (s : map_lock_t.t key mapped_type) (k : key) (v : mapped_type).
Implicit Types (ss : list (map_lock_t.t key mapped_type)).
Implicit Types (f : Map.value_type key mapped_type → bool).
Local Open Scope Z_scope.

Lemma entries_of_filter_id f ss :
  (∀ (j : nat) s, ss !! j = Some s →
     List.filter f (map_lock_t.entries s) = map_lock_t.entries s) →
  List.filter f (map_sharded_t.entries_of ss) = map_sharded_t.entries_of ss.
Proof.
  induction ss as [|s ss IH]; intros Hid; [done|].
  rewrite entries_of_cons, List.filter_app, (Hid 0%nat s eq_refl).
  rewrite IH; [done|]. intros j s' Hj. by apply (Hid (S j)).
Qed.

Lemma entries_of_insert_filter f ss (i : nat) s s' :
  ss !! i = Some s →
  map_lock_t.entries s' = List.filter f (map_lock_t.entries s) →
  (∀ (j : nat) sj, j ≠ i → ss !! j = Some sj →
     List.filter f (map_lock_t.entries sj) = map_lock_t.entries sj) →
  map_sharded_t.entries_of (<[i:=s']> ss)
  = List.filter f (map_sharded_t.entries_of ss).
Proof.
  revert i. induction ss as [|s0 ss IH]; intros i Hi He Hid; [done|].
  destruct i as [|i]; simpl in Hi |- *.
  - injection Hi as ->. rewrite !entries_of_cons, List.filter_app, He.
    rewrite entries_of_filter_id; [done|].
    intros j sj Hj. by apply (Hid (S j)).
  - rewrite !entries_of_cons, List.filter_app.
    rewrite (Hid 0%nat s0) by done. rewrite (IH i); [done..|].
    intros j sj Hne Hj. apply (Hid (S j)); [lia|done].
Qed.

Lemma filter_key_present k (l : Map.t key mapped_type) :
  k ∈ Map.keys l → (1 ≤ length (List.filter (Map.has_key k) l))%nat.
Proof.
  unfold Map.keys. induction l as [|e l IH]; simpl.
  - by intros ?%elem_of_nil.
  - intros Hk. destruct (Map.has_key k e) eqn:He; simpl; [lia|].
    apply elem_of_cons in Hk as [->|Hk]; [|by apply IH].
    apply has_key_false in He. done.
Qed.

Lemma filter_key_gone k (l : Map.t key mapped_type) :
  k ∉ Map.keys (List.filter (λ e, negb (Map.has_key k e)) l).
Proof.
  unfold Map.keys. intros Hk. apply list_elem_of_fmap in Hk as (e & -> & He).
  apply list_elem_of_In, filter_In in He as [_ He].
  apply negb_true_iff, has_key_false in He. done.
Qed.

(** X7: in a state the map reaches from its construction, [erase(k)]
    takes out the entry with key [k] and nothing else: the entries
    afterwards are the entries before without that one, in the same
    order; it returns 1 when the key was stored; and the key is stored
    nowhere afterwards. *)
Theorem erase_removes_key (shard_num : nat) m k :
  history.reachable nullptr Hash shard_num m → (1 ≤ shard_num)%nat →
  ∃ m' c, map_sharded_t.erase Hash k m = Ok (m', c)
    ∧ map_sharded_t.entries m'
      = List.filter (λ e, negb (Map.has_key k e)) (map_sharded_t.entries m)
    ∧ (k ∈ Map.keys (map_sharded_t.entries m) → c = 1)
    ∧ (k ∉ Map.keys (map_sharded_t.entries m'))
    ∧ map_sharded_t.live m' = map_sharded_t.live m - c.
Proof.
  intros Hreach Hnum.
  destruct (reachable_inv _ _ _ _ Hreach) as [[Hwf _] Hlen].
  destruct Hreach as (ops & evs & Hrun).
  assert (routing.routed Hash m) as Hr.
  { eapply run_routed; [done|]. apply constructed_routed. }
  assert (length (map_sharded_t.shards_ m) ≠ 0%nat) as Hn by lia.
  destruct (erase_shard Hash k m Hn) as (s & Hs & Her).
  destruct (erase_inv Hash _ _ _ _ Her) as (_ & Hc & _).
  eexists _, _. split; [exact Her|].
  assert (map_sharded_t.entries
            (map_sharded_t.MapSharded
               (<[map_sharded_t.shard_index m (Hash k) :=
                    (map_lock_t.erase k s).1]> (map_sharded_t.shards_ m))
               (if decide ((map_lock_t.erase k s).2 ≠ 0)
                then Int.fetch_sub (map_sharded_t.size_ m) (map_lock_t.erase k s).2
                else map_sharded_t.size_ m))
          = List.filter (λ e, negb (Map.has_key k e)) (map_sharded_t.entries m))
    as Hent.
  { unfold map_sharded_t.entries. simpl.
    apply (entries_of_insert_filter _ _ _ s); [done| |].
    - by destruct (shard_erase_entries k s) as [-> _].
    - intros j sj Hne Hj. apply filter_out_absent. intros Hk.
      apply Hne. symmetry. by apply (Hr j sj k). }
  split_and!.
  - exact Hent.
  - intros Hk. unfold Map.keys in Hk.
    apply list_elem_of_fmap in Hk as (e & -> & He).
    apply elem_of_entries_of_inv in He as (j & s' & Hj & He).
    assert (e.1 ∈ Map.keys (map_lock_t.entries s')) as Hk'
      by (by apply list_elem_of_fmap_2).
    assert (map_sharded_t.shard_index m (Hash e.1) = j) as Hidx
      by (by apply (Hr j s')).
    rewrite Hidx in Hs. assert (s' = s) as -> by congruence.
    destruct (shard_erase_entries e.1 s) as [_ ->].
    assert (map_lock_t.wf s) as Hws by (by eapply Forall_lookup_1).
    pose proof (unique_key_count e.1 _ Hws).
    pose proof (filter_key_present e.1 _ Hk'). lia.
  - rewrite Hent. apply filter_key_gone.
  - lia.
Qed.

(** X8: [erase_if(op)] with a stable predicate (one passed as an lvalue,
    or one a move does not change) takes out of every shard exactly the
    entries [op] holds of and keeps the others in their order; and it
    returns the number of entries taken out when that number is at most
    [INT_MAX]. *)
Theorem erase_if_removes_matching (op : predicate key mapped_type) m :
  stable op →
  map_sharded_t.entries (map_sharded_t.erase_if op m).1
  = List.filter (λ e, negb (test op 0 e)) (map_sharded_t.entries m)
  ∧ (∀ e, e ∈ map_sharded_t.entries (map_sharded_t.erase_if op m).1
          ↔ e ∈ map_sharded_t.entries m ∧ test op 0 e = false)
  ∧ (Z.of_nat (length (List.filter (test op 0) (map_sharded_t.entries m)))
     ≤ Int.int_max →
     (map_sharded_t.erase_if op m).2
     = Z.of_nat (length (List.filter (test op 0) (map_sharded_t.entries m)))).
Proof.
  intros Hst. pose proof (erase_if_entries op m Hst) as Hent.
  pose proof (filter_keep_length (test op 0) (map_sharded_t.entries m)) as Hkeep.
  split_and!.
  - exact Hent.
  - intros e. rewrite Hent, !list_elem_of_In, filter_In, negb_true_iff. done.
  - intros Hmax. rewrite erase_if_returns_count.
    + unfold map_sharded_t.live. rewrite Hent. lia.
    + unfold map_sharded_t.live. rewrite Hent. lia.
Qed.

Lemma erase_if_loop_size_range (op : predicate key mapped_type) (moves : nat)
    ss total sz :
  ss ≠ [] → 0 ≤ (map_sharded_t.erase_if_loop op moves ss total sz).2 < 2 ^ 64.
Proof.
  destruct ss as [|s ss]; [done|]. intros _. simpl.
  destruct (map_lock_t.erase_if op moves s) as [[s1 res] moves1].
  destruct (map_sharded_t.erase_if_loop op moves1 ss _ _) as [[rest t] z] eqn:Hl.
  destruct (erase_if_loop_spec _ _ _ _ _ _ _ _ Hl) as (_ & _ & _ & _ & Hr).
  simpl. apply Hr, fetch_sub_range.
Qed.

(** X9: a second [erase_if] with the same stable predicate finds
    nothing: it returns 0 and leaves the map, counter included, as the
    first one left it. *)
Theorem erase_if_twice (op : predicate key mapped_type) m :
  stable op →
  map_sharded_t.erase_if op (map_sharded_t.erase_if op m).1
  = ((map_sharded_t.erase_if op m).1, 0).
Proof.
  intros Hst. destruct (erase_if_inv op m) as (Hlen & _ & _).
  pose proof (erase_if_entries op m Hst) as Hent.
  set (m1 := (map_sharded_t.erase_if op m).1) in *.
  assert (∀ n e, (∀ e0, test op n e0 = test op 0 e0) →
                 e ∈ map_sharded_t.entries_of (map_sharded_t.shards_ m1) →
                 test op n e = false) as Hno.
  { intros n e Hn He. unfold map_sharded_t.entries in Hent. rewrite Hent in He.
    apply list_elem_of_In, filter_In in He as [_ He].
    rewrite Hn. by apply negb_true_iff. }
  destruct (map_sharded_t.shards_ m1) as [|s1 ss1] eqn:Hss.
  - unfold map_sharded_t.erase_if at 1. rewrite Hss. simpl.
    destruct m1 as [ss sz]. simpl in Hss. by subst ss.
  - assert (0 ≤ map_sharded_t.size_ m1 < 2 ^ 64) as Hrange.
    { unfold m1, map_sharded_t.erase_if.
      assert (map_sharded_t.shards_ m ≠ []) as Hne.
      { intros Hnil. rewrite Hnil in Hlen. simpl in Hlen. lia. }
      pose proof (erase_if_loop_size_range op 0 (map_sharded_t.shards_ m) 0
                    (map_sharded_t.size_ m) Hne) as Hr.
      by destruct (map_sharded_t.erase_if_loop op _ _ _ _) as [[ss t] z]. }
    unfold map_sharded_t.erase_if at 1. rewrite Hss.
    rewrite (erase_if_loop_none op (λ n, ∀ e, test op n e = test op 0 e));
      [|done| |done|lia|done].
    + rewrite <- Hss. by destruct m1.
    + intros n. by apply stable_forwarded.
Qed.

(** X10: with a stable predicate, [erase_one(op)] passes the shards [op]
    holds of no entry of and leaves them as they are; at the first shard
    with such an entry it takes out all of that shard's entries [op]
    holds of, takes their number off the counter, and touches no later
    shard; it returns that number when it is at most [INT_MAX]. *)
Theorem erase_one_first_match (op : predicate key mapped_type) pre s post (sz : Z) :
  stable op →
  (∀ e, e ∈ map_sharded_t.entries_of pre → test op 0 e = false) →
  (∃ e, e ∈ map_lock_t.entries s ∧ test op 0 e = true) →
  let c := Z.of_nat (length (List.filter (test op 0) (map_lock_t.entries s))) in
  ∃ s', map_lock_t.entries s'
        = List.filter (λ e, negb (test op 0 e)) (map_lock_t.entries s)
    ∧ (map_sharded_t.erase_one op (map_sharded_t.MapSharded (pre ++ s :: post) sz)).1
      = map_sharded_t.MapSharded (pre ++ s' :: post) (Int.fetch_sub sz c)
    ∧ 1 ≤ c
    ∧ (c ≤ Int.int_max →
       (map_sharded_t.erase_one op (map_sharded_t.MapSharded (pre ++ s :: post) sz)).2
       = c).
Proof.
  intros Hst Hno (e & He & Hpe) c.
  destruct (shard_erase_if_entries op 0 s) as [Hent Hres]. fold c in Hres.
  assert (1 ≤ c) as Hc.
  { unfold c. apply list_elem_of_In in He.
    assert (In e (List.filter (test op 0) (map_lock_t.entries s))) as Hin
      by (by apply filter_In).
    destruct (List.filter (test op 0) (map_lock_t.entries s)); [done|]. simpl. lia. }
  assert ((map_lock_t.erase_if op 0 s).1.2 ≠ 0) as Hne by lia.
  destruct (erase_one_first op pre s post sz Hst Hno Hne) as [Heq Hsmall].
  exists (map_lock_t.erase_if op 0 s).1.1. rewrite Heq, Hres. simpl.
  split_and!; [done..|]. intros Hmax. rewrite Hres in Hsmall. by apply Hsmall.
Qed.

Lemma erase_if_loop_lookup (op : predicate key mapped_type) (moves : nat)
    ss total sz (j : nat) s :
  ss !! j = Some s →
  (map_sharded_t.erase_if_loop op moves ss total sz).1.1 !! j
  = Some (map_lock_t.erase_if op
            (moves + routing.moves_before op (take j ss)) s).1.1.
Proof.
  revert moves total sz j. induction ss as [|s0 ss IH];
    intros moves total sz j Hj; [done|]. simpl.
  pose proof (shard_erase_if_moves op moves s0) as Hm.
  destruct (map_lock_t.erase_if op moves s0) as [[s1 res] moves1] eqn:Hs0.
  simpl in Hm.
  specialize (IH moves1 (Int.int_add_assign total res) (Int.fetch_sub sz res)).
  destruct (map_sharded_t.erase_if_loop op moves1 ss _ _) as [[rest t] z].
  simpl in IH. destruct j as [|j]; simpl in Hj |- *.
  - injection Hj as <-.
    assert (routing.moves_before op [] = 0)%nat as ->
      by (unfold routing.moves_before; by destruct (passed_as op)).
    by rewrite Nat.add_0_r, Hs0.
  - rewrite (IH j Hj). do 4 f_equal. rewrite Hm.
    unfold routing.moves_before, forwarded. simpl.
    destruct (passed_as op), (map_lock_t.allocated s0); simpl; lia.
Qed.

(** X19: how the forwarded argument of [erase_if] reaches the shards:
    shard [j] is filtered by the answers the predicate gives after as
    many moves as there are shards with storage before it, when it was
    passed as an rvalue, and by its first answers when it was passed as
    an lvalue. *)
Theorem erase_if_each_shard (op : predicate key mapped_type) m (j : nat) s :
  map_sharded_t.shards_ m !! j = Some s →
  ∃ s', map_sharded_t.shards_ (map_sharded_t.erase_if op m).1 !! j = Some s'
    ∧ map_lock_t.entries s'
      = List.filter
          (λ e, negb (test op (routing.moves_before op
                                 (take j (map_sharded_t.shards_ m))) e))
          (map_lock_t.entries s)
    ∧ map_lock_t.allocated s' = map_lock_t.allocated s.
Proof.
  intros Hj. unfold map_sharded_t.erase_if.
  pose proof (erase_if_loop_lookup op 0 (map_sharded_t.shards_ m) 0
                (map_sharded_t.size_ m) j s Hj) as Hl.
  destruct (map_sharded_t.erase_if_loop op 0 _ _ _) as [[ss t] z].
  simpl in *. eexists. split; [exact Hl|]. split.
  - by destruct (shard_erase_if_entries op
                   (routing.moves_before op (take j (map_sharded_t.shards_ m))) s)
      as [-> _].
  - apply shard_erase_if_allocated.
Qed.
End removal_effects.

(** ** What a traversal sees and what it leaves *)

Section traversal_facts.
Context {key : Type} `{!EqDecision key} {mapped_type : Type}.
Context (nullptr : mapped_type) (Hash : key → N).
Implicit Types (m : map_sharded_t.t key mapped_type).
Implicit Types (s : map_lock_t.t key mapped_type) (k : key) (v : mapped_type).
Implicit Types (ss : list (map_lock_t.t key mapped_type)).
Implicit Types (l : Map.t key mapped_type) (e : Map.value_type key mapped_type).

Lemma for_each_loop_keys_all {A} (vis : visitor key mapped_type A) ss (a : A) :
  Map.keys (map_sharded_t.entries_of (map_sharded_t.for_each_loop vis ss a).1.1)
  = Map.keys (map_sharded_t.entries_of ss).
Proof.
  unfold Map.keys. revert a. induction ss as [|s ss IH]; intros a; simpl; [done|].
  pose proof (shard_for_each_keys vis s a) as Hk. unfold Map.keys in Hk.
  destruct (map_lock_t.for_each vis s a) as [[[s1 a1] tr] b]. simpl in Hk.
  destruct b; simpl.
  - specialize (IH a1).
    destruct (map_sharded_t.for_each_loop vis ss a1) as [[rest a2] tr2].
    simpl in *. by rewrite !entries_of_cons, !fmap_app, Hk, IH.
  - by rewrite !entries_of_cons, !fmap_app, Hk.
Qed.

(** X11: [for_each] neither inserts nor removes: whatever the visitor
    does, the map afterwards has the same shards with the same keys in
    the same order, and the same counter. *)
Theorem for_each_keeps_keys {A} (vis : visitor key mapped_type A) m (a : A) :
  length (map_sharded_t.shards_ (map_sharded_t.for_each vis m a).1.1)
  = length (map_sharded_t.shards_ m)
  ∧ Map.keys (map_sharded_t.entries (map_sharded_t.for_each vis m a).1.1)
    = Map.keys (map_sharded_t.entries m)
  ∧ map_sharded_t.size (map_sharded_t.for_each vis m a).1.1
    = map_sharded_t.size m.
Proof.
  destruct (for_each_inv vis m a) as (Hlen & _ & _).
  split; [done|]. unfold map_sharded_t.for_each, map_sharded_t.entries in *.
  pose proof (for_each_loop_keys_all vis (map_sharded_t.shards_ m) a) as Hk.
  destruct (map_sharded_t.for_each_loop vis _ a) as [[ss a'] tr]. by simpl in *.
Qed.

Lemma for_each_loop_prefix {A} (vis : visitor key mapped_type A) l (a : A) :
  ∃ pre' post,
    l = (map_lock_t.for_each_loop vis l a).1.2 ++ post
    ∧ (map_lock_t.for_each_loop vis l a).1.1.1 = pre' ++ post
    ∧ pre'.*1 = (map_lock_t.for_each_loop vis l a).1.2.*1
    ∧ (l ≠ [] → (map_lock_t.for_each_loop vis l a).1.2 ≠ []).
Proof.
  revert a. induction l as [|e l IH]; intros a; simpl.
  - by exists [], [].
  - pose proof (for_each_body_key vis e a) as Hk.
    destruct (map_lock_t.for_each_body vis e a) as [[e' a'] c]. simpl in Hk.
    destruct c; simpl.
    + destruct (IH a') as (pre' & post & Hl & Hl' & Hkeys & _).
      destruct (map_lock_t.for_each_loop vis l a') as [[[l' a''] tr] c'].
      simpl in *. exists (e' :: pre'), post. split_and!.
      * by rewrite <- Hl.
      * by rewrite Hl'.
      * simpl. f_equal; [exact Hk | exact Hkeys].
      * done.
    + exists [e'], l. split_and!; [done..| |done]. simpl. by rewrite Hk.
    + exists [e'], l. split_and!; [done..| |done]. simpl. by rewrite Hk.
Qed.

Lemma shard_for_each_split {A} (vis : visitor key mapped_type A) s (a : A) :
  ∃ pre' post,
    map_lock_t.entries s = (map_lock_t.for_each vis s a).1.2 ++ post
    ∧ map_lock_t.entries (map_lock_t.for_each vis s a).1.1.1 = pre' ++ post
    ∧ pre'.*1 = (map_lock_t.for_each vis s a).1.2.*1
    ∧ (map_lock_t.entries s ≠ [] → (map_lock_t.for_each vis s a).1.2 ≠ []).
Proof.
  unfold map_lock_t.for_each, map_lock_t.entries.
  destruct (map_lock_t.map_ s) as [l|] eqn:Hl; simpl.
  - destruct (for_each_loop_prefix vis l a) as (pre' & post & H1 & H2 & H3 & H4).
    destruct (map_lock_t.for_each_loop vis l a) as [[[l' a'] tr] c].
    simpl in *. by exists pre', post.
  - rewrite Hl. by exists [], [].
Qed.

(** X12: one shard's [for_each] applies the visitor to a prefix of the
    shard's entries, in their order, and to at least one entry when
    there is one; the entries behind that prefix are not touched, and
    the visited ones keep their keys. *)
Theorem shard_for_each_prefix {A} (vis : visitor key mapped_type A) s (a : A) :
  ∃ pre' post,
    map_lock_t.entries s = (map_lock_t.for_each vis s a).1.2 ++ post
    ∧ map_lock_t.entries (map_lock_t.for_each vis s a).1.1.1 = pre' ++ post
    ∧ pre'.*1 = (map_lock_t.for_each vis s a).1.2.*1
    ∧ (map_lock_t.entries s ≠ [] → (map_lock_t.for_each vis s a).1.2 ≠ []).
Proof.
  unfold map_lock_t.for_each, map_lock_t.entries.
  destruct (map_lock_t.map_ s) as [l|] eqn:Hl; simpl.
  - destruct (for_each_loop_prefix vis l a) as (pre' & post & H1 & H2 & H3 & H4).
    destruct (map_lock_t.for_each_loop vis l a) as [[[l' a'] tr] c].
    simpl in *. by exists pre', post.
  - rewrite Hl. by exists [], [].
Qed.

Lemma never_stops_body {A} (vis : visitor key mapped_type A) :
  routing.never_stops vis →
  ∀ e a, (map_lock_t.for_each_body vis e a).2 = Normal.
Proof.
  intros Hvis e a. unfold map_lock_t.for_each_body.
  destruct vis as [op|op]; simpl in Hvis.
  - specialize (Hvis e a). destruct (op e a) as [[v' a'] r]. simpl in *.
    by subst r.
  - by destruct (op e a) as [v' a'].
Qed.

Lemma shard_for_each_all {A} (vis : visitor key mapped_type A) s (a : A) :
  routing.never_stops vis →
  (map_lock_t.for_each vis s a).1.2 = map_lock_t.entries s.
Proof.
  intros Hvis. unfold map_lock_t.for_each, map_lock_t.entries.
  destruct (map_lock_t.map_ s) as [l|]; [|done].
  pose proof (for_each_loop_all vis l a (never_stops_body vis Hvis)) as Hall.
  by destruct (map_lock_t.for_each_loop vis l a) as [[[l' a'] tr] c].
Qed.

(** X13: a visitor that never asks to stop (a void-producing one, or a
    boolean-producing one that always answers [true]) is applied to
    every entry of the map exactly once, shard by shard in index order
    and within a shard in the map's order, each entry as it was before
    the visit. *)
Theorem for_each_complete_pass {A} (vis : visitor key mapped_type A) m (a : A) :
  routing.never_stops vis →
  (map_sharded_t.for_each vis m a).2 = map_sharded_t.entries m.
Proof.
  intros Hvis. unfold map_sharded_t.for_each, map_sharded_t.entries.
  assert (∀ ss a0, (map_sharded_t.for_each_loop vis ss a0).2
                   = map_sharded_t.entries_of ss) as Hloop.
  { induction ss as [|s ss IH]; intros a0; simpl; [done|].
    pose proof (shard_for_each_all vis s a0 Hvis) as Hs.
    pose proof (shard_for_each_true vis s a0) as Hb.
    destruct (map_lock_t.for_each vis s a0) as [[[s1 a1] tr] b].
    simpl in Hs, Hb. subst b tr. simpl. specialize (IH a1).
    destruct (map_sharded_t.for_each_loop vis ss a1) as [[rest a2] tr2].
    simpl in *. by rewrite IH, entries_of_cons. }
  specialize (Hloop (map_sharded_t.shards_ m) a).
  by destruct (map_sharded_t.for_each_loop vis _ a) as [[ss a'] tr].
Qed.

(** X14: whatever the visitor answers, the map's [for_each] reaches
    every shard: the first entry of every shard that has one is among
    the entries the visitor is applied to. *)
Theorem for_each_reaches_every_shard {A} (vis : visitor key mapped_type A)
    m (a : A) (j : nat) s e l :
  map_sharded_t.shards_ m !! j = Some s →
  map_lock_t.entries s = e :: l →
  e ∈ (map_sharded_t.for_each vis m a).2.
Proof.
  intros Hj He. unfold map_sharded_t.for_each.
  assert (∀ ss (i : nat) a0, ss !! i = Some s →
            e ∈ (map_sharded_t.for_each_loop vis ss a0).2) as Hloop.
  { induction ss as [|s0 ss IH]; intros i a0 Hi; [done|]. simpl.
    pose proof (shard_for_each_true vis s0 a0) as Hb.
    destruct i as [|i]; simpl in Hi.
    - injection Hi as ->.
      destruct (shard_for_each_split vis s a0) as (pre' & post & Hpre & _ & _ & Hne).
      destruct (map_lock_t.for_each vis s a0) as [[[s1 a1] tr] b].
      simpl in *. subst b. simpl.
      destruct (map_sharded_t.for_each_loop vis ss a1) as [[rest a2] tr2].
      simpl. apply elem_of_app. left.
      rewrite He in Hpre, Hne. destruct tr as [|e0 tr]; [by destruct Hne|].
      injection Hpre as -> _. left.
    - destruct (map_lock_t.for_each vis s0 a0) as [[[s1 a1] tr] b].
      simpl in *. subst b. simpl. specialize (IH i a1 Hi).
      destruct (map_sharded_t.for_each_loop vis ss a1) as [[rest a2] tr2].
      simpl in *. apply elem_of_app. by right. }
  specialize (Hloop (map_sharded_t.shards_ m) j a Hj).
  by destruct (map_sharded_t.for_each_loop vis _ a) as [[ss a'] tr].
Qed.

(** X15: [copy(op)] returns the mapped values [op] accepts, in shard
    order and within a shard in the map's order: a value is in the
    result exactly when [op] accepts it and some entry holds it, and the
    result is no longer than the map has entries. *)
Theorem copy_selects (op : mapped_type → bool) m :
  map_sharded_t.copy op m = List.filter op (map_sharded_t.entries m).*2
  ∧ (∀ v, v ∈ map_sharded_t.copy op m
          ↔ op v = true ∧ ∃ k, (k, v) ∈ map_sharded_t.entries m)
  ∧ length (map_sharded_t.copy op m) ≤ length (map_sharded_t.entries m).
Proof.
  rewrite copy_filter. split_and!.
  - done.
  - intros v. rewrite list_elem_of_In, filter_In, <- list_elem_of_In.
    rewrite list_elem_of_fmap. split.
    + intros [([k v'] & -> & Hin) Hop]. split; [done|]. by exists k.
    + intros [Hop [k Hin]]. split; [|done]. by exists (k, v).
  - assert (∀ vs : list mapped_type, length (List.filter op vs) ≤ length vs)
      as Hle.
    { induction vs as [|v vs IH]; simpl; [lia|]. destruct (op v); simpl; lia. }
    etrans; [apply Hle|]. by rewrite length_fmap.
Qed.
End traversal_facts.

(** ** A map just constructed, and a map that grows *)

Section construction_facts.
Context {key : Type} `{!EqDecision key} {mapped_type : Type}.
Context (nullptr : mapped_type) (Hash : key → N).
Implicit Types (m : map_sharded_t.t key mapped_type).
Implicit Types (s : map_lock_t.t key mapped_type) (k : key) (v : mapped_type).
Implicit Types (ss : list (map_lock_t.t key mapped_type)).
Local Open Scope Z_scope.

Abbreviation constructed n := (@map_sharded_t.map_sharded_t key mapped_type n).

Lemma for_each_loop_unallocated {A} (vis : visitor key mapped_type A)
    (n : nat) (a : A) :
  map_sharded_t.for_each_loop vis (replicate n map_lock_t.map_lock_t) a
  = (replicate n map_lock_t.map_lock_t, a, []).
Proof. induction n as [|n IH]; simpl; [done|]. by rewrite IH. Qed.

(** X16: a map just constructed holds nothing: its counter is 0,
    [copy()] is empty, [erase_if] and [erase_one] return 0, [for_each]
    visits nothing, and all of them leave it as it is.  With at least
    one shard, [find] returns the null handle and [erase] returns 0 for
    every key; constructed with no shard, [find], [try_emplace] and
    [erase] are undefined for every key (a remainder by zero). *)
Theorem constructed_empty (shard_num : nat) :
  map_sharded_t.entries (constructed shard_num) = []
  ∧ map_sharded_t.size (constructed shard_num) = 0
  ∧ map_sharded_t.copy_all (constructed shard_num) = []
  ∧ (∀ p, map_sharded_t.erase_if p (constructed shard_num)
          = (constructed shard_num, 0)
        ∧ map_sharded_t.erase_one p (constructed shard_num)
          = (constructed shard_num, 0))
  ∧ (∀ A (vis : visitor key mapped_type A) a,
       map_sharded_t.for_each vis (constructed shard_num) a
       = (constructed shard_num, a, []))
  ∧ ((1 ≤ shard_num)%nat →
     ∀ k, map_sharded_t.find nullptr Hash k (constructed shard_num) = Ok nullptr
          ∧ map_sharded_t.erase Hash k (constructed shard_num)
            = Ok (constructed shard_num, 0))
  ∧ (shard_num = 0%nat →
     ∀ k v, map_sharded_t.find nullptr Hash k (constructed shard_num) = UB
            ∧ map_sharded_t.try_emplace Hash k v (constructed shard_num) = UB
            ∧ map_sharded_t.erase Hash k (constructed shard_num) = UB).
Proof.
  assert (map_sharded_t.entries (constructed shard_num) = []) as Hent.
  { unfold map_sharded_t.entries. simpl. apply entries_of_replicate. }
  split_and!.
  - done.
  - done.
  - unfold map_sharded_t.copy_all. by rewrite copy_filter, Hent.
  - intros p. split.
    + unfold map_sharded_t.erase_if.
      rewrite (erase_if_loop_none p (λ _, True)); [done..| |lia|simpl; lia].
      intros n e _ He. unfold map_sharded_t.entries in Hent. rewrite Hent in He.
      by apply elem_of_nil in He.
    + unfold map_sharded_t.erase_one.
      rewrite (erase_one_loop_none p (λ _, True)); [done..|].
      intros n e _ He. unfold map_sharded_t.entries in Hent. rewrite Hent in He.
      by apply elem_of_nil in He.
  - intros A vis a. unfold map_sharded_t.for_each. simpl.
    by rewrite for_each_loop_unallocated.
  - intros Hn k.
    assert (length (map_sharded_t.shards_ (constructed shard_num)) ≠ 0%nat) as Hn0.
    { simpl. rewrite length_replicate. lia. }
    destruct (get_sharded_Ok (constructed shard_num) (Hash k) Hn0) as (s & Hs & Hg).
    pose proof Hs as Hs'. simpl in Hs'. apply lookup_replicate in Hs' as [-> _].
    split.
    + by eapply find_unallocated.
    + unfold map_sharded_t.erase. rewrite Hg. simpl.
      by rewrite list_insert_id.
  - intros -> k v. done.
Qed.

Lemma entries_of_insert_grow ss (i : nat) s s' extra :
  ss !! i = Some s →
  map_lock_t.entries s' = map_lock_t.entries s ++ extra →
  map_sharded_t.entries_of (<[i:=s']> ss) ≡ₚ extra ++ map_sharded_t.entries_of ss.
Proof.
  revert i. induction ss as [|s0 ss IH]; intros i Hi He; [done|].
  destruct i as [|i]; simpl in Hi |- *.
  - injection Hi as ->. rewrite !entries_of_cons, He.
    rewrite <- (assoc_L (++)). apply Permutation_app_swap_app.
  - rewrite !entries_of_cons, (IH i) by done.
    apply Permutation_app_swap_app.
Qed.

(** X17: a [try_emplace] that inserts adds the one entry [(k, v)] and
    changes no other: the entries afterwards are the new entry together
    with the entries before; in particular no entry is overwritten or
    lost. *)
Theorem try_emplace_adds_one k v m m' e :
  map_sharded_t.try_emplace Hash k v m = Ok (m', (e, true)) →
  e = (k, v)
  ∧ map_sharded_t.entries m' ≡ₚ (k, v) :: map_sharded_t.entries m
  ∧ (∀ e0, e0 ∈ map_sharded_t.entries m → e0 ∈ map_sharded_t.entries m').
Proof.
  intros Hte.
  destruct (decide (length (map_sharded_t.shards_ m) = 0%nat)) as [Hn|Hn].
  { unfold map_sharded_t.try_emplace in Hte.
    by rewrite get_sharded_empty in Hte. }
  destruct (try_emplace_shard Hash k v m Hn) as (s & Hs & Heq).
  rewrite Heq in Hte. injection Hte as <- Hres.
  rewrite shard_try_emplace_entries in Hres |- *. simpl in Hres |- *.
  unfold Map.try_emplace in Hres |- *.
  destruct (Map.find k (map_lock_t.entries s)) eqn:Hfind; simpl in Hres; [done|].
  simpl.
  assert (map_sharded_t.entries_of
            (<[map_sharded_t.shard_index m (Hash k) :=
                 map_lock_t.MapLock (Some (map_lock_t.entries s ++ [(k, v)]))]>
               (map_sharded_t.shards_ m))
          ≡ₚ (k, v) :: map_sharded_t.entries m) as Hperm.
  { by rewrite (entries_of_insert_grow _ _ s _ [(k, v)]). }
  split_and!.
  - congruence.
  - exact Hperm.
  - intros e0 He0. unfold map_sharded_t.entries at 1. simpl.
    rewrite Hperm. by right.
Qed.
End construction_facts.

(** ** The further properties at the sample maps *)

Lemma four_shards_reachable :
  history.reachable sample.nullptr sample.Hash 4 sample.four_shards.
Proof.
  exists sample.four_shards_history, (repeat (history.Inserted true) 5).
  reflexivity.
Defined.

Lemma find_after_try_emplace_witness :
  map_sharded_t.try_emplace sample.Hash 6%N 60%N sample.four_shards
  = Ok (sample.with_six, ((6%N, 60%N), true))
  ∧ map_sharded_t.find sample.nullptr sample.Hash 6%N sample.with_six = Ok 60%N.
Proof.
  assert (map_sharded_t.try_emplace sample.Hash 6%N 60%N sample.four_shards
          = Ok (sample.with_six, ((6%N, 60%N), true))) as Hte by reflexivity.
  split; [exact Hte|].
  destruct (find_after_try_emplace sample.nullptr sample.Hash _ _ _ _ _ _ Hte)
    as (_ & _ & Hfind).
  exact Hfind.
Defined.

Lemma erase_after_try_emplace_witness :
  (0 ≤ map_sharded_t.size_ sample.four_shards < 2 ^ 64)%Z
  ∧ ∃ m'', map_sharded_t.erase sample.Hash 6%N sample.with_six = Ok (m'', 1%Z)
      ∧ map_sharded_t.entries m'' ≡ₚ map_sharded_t.entries sample.four_shards
      ∧ map_sharded_t.size m'' = 5%Z.
Proof.
  assert (0 ≤ map_sharded_t.size_ sample.four_shards < 2 ^ 64)%Z as Hsz
    by (change (0 ≤ 5 < 2 ^ 64)%Z; lia).
  split; [exact Hsz|].
  assert (map_sharded_t.try_emplace sample.Hash 6%N 60%N sample.four_shards
          = Ok (sample.with_six, ((6%N, 60%N), true))) as Hte by reflexivity.
  destruct (erase_after_try_emplace sample.Hash 6%N 60%N sample.four_shards
              sample.with_six (6%N, 60%N) Hsz Hte)
    as (m'' & Her & Hent & Hsize & _).
  exists m''. split; [exact Her|]. split; [exact Hent|].
  rewrite Hsize. reflexivity.
Defined.

Lemma find_after_erase_witness :
  map_sharded_t.erase sample.Hash 5%N sample.four_shards
  = Ok (sample.without_five, 1%Z)
  ∧ map_sharded_t.find sample.nullptr sample.Hash 5%N sample.without_five = UB.
Proof.
  assert (map_sharded_t.erase sample.Hash 5%N sample.four_shards
          = Ok (sample.without_five, 1%Z)) as Her by reflexivity.
  split; [exact Her|].
  apply (find_after_erase sample.nullptr sample.Hash 5%N sample.four_shards
           sample.without_five 1%Z Her).
  discriminate.
Defined.

Lemma reachable_keys_routed_witness :
  history.reachable sample.nullptr sample.Hash 4 sample.four_shards
  ∧ NoDup (Map.keys (map_sharded_t.entries sample.four_shards)).
Proof.
  split; [exact four_shards_reachable|].
  destruct (reachable_keys_routed sample.nullptr sample.Hash 4
              sample.four_shards four_shards_reachable) as [_ Hnodup].
  exact Hnodup.
Defined.

Lemma find_stored_value_witness :
  (5%N, 50%N) ∈ map_sharded_t.entries sample.four_shards
  ∧ map_sharded_t.find sample.nullptr sample.Hash 5%N sample.four_shards = Ok 50%N.
Proof.
  assert ((5%N, 50%N) ∈ map_sharded_t.entries sample.four_shards) as Hin
    by (apply (bool_decide_unpack _); vm_compute; exact I).
  split; [exact Hin|].
  exact (find_stored_value sample.nullptr sample.Hash 4 sample.four_shards
           5%N 50%N four_shards_reachable Hin).
Defined.

Lemma erase_removes_key_witness :
  5%N ∈ Map.keys (map_sharded_t.entries sample.four_shards)
  ∧ ∃ m', map_sharded_t.erase sample.Hash 5%N sample.four_shards = Ok (m', 1%Z)
      ∧ map_sharded_t.entries m' = [(4, 40); (1, 10); (2, 20); (3, 30)]%N.
Proof.
  assert (5%N ∈ Map.keys (map_sharded_t.entries sample.four_shards)) as Hin
    by (apply (bool_decide_unpack _); vm_compute; exact I).
  split; [exact Hin|].
  destruct (erase_removes_key sample.nullptr sample.Hash 4 sample.four_shards
              5%N four_shards_reachable) as (m' & c & Her & Hent & Hc & _);
    [lia|].
  rewrite (Hc Hin) in Her. exists m'. split; [exact Her|].
  rewrite Hent. reflexivity.
Defined.

Lemma erase_if_removes_matching_witness :
  stable (named sample.value_is_50)
  ∧ (Z.of_nat (length (List.filter sample.value_is_50
                         (map_sharded_t.entries sample.four_shards)))
     ≤ Int.int_max)%Z
  ∧ (map_sharded_t.erase_if (named sample.value_is_50) sample.four_shards).2
    = 1%Z.
Proof.
  assert (stable (named sample.value_is_50)) as Hst by (by left).
  assert (Z.of_nat (length (List.filter sample.value_is_50
                              (map_sharded_t.entries sample.four_shards)))
          ≤ Int.int_max)%Z as Hmax by (vm_compute; discriminate).
  split; [exact Hst|]. split; [exact Hmax|].
  destruct (erase_if_removes_matching (named sample.value_is_50)
              sample.four_shards Hst) as (_ & _ & Hret).
  rewrite (Hret Hmax). reflexivity.
Defined.

Lemma erase_if_twice_witness :
  stable (named sample.value_is_50)
  ∧ map_sharded_t.erase_if (named sample.value_is_50)
      (map_sharded_t.erase_if (named sample.value_is_50) sample.four_shards).1
    = (sample.without_five, 0%Z).
Proof.
  assert (stable (named sample.value_is_50)) as Hst by (by left).
  split; [exact Hst|].
  rewrite (erase_if_twice (named sample.value_is_50) sample.four_shards Hst).
  reflexivity.
Defined.

Lemma erase_one_first_match_witness :
  stable (named sample.value_is_50)
  ∧ (∀ e, e ∈ map_sharded_t.entries_of [sample.shard0] →
          sample.value_is_50 e = false)
  ∧ (map_sharded_t.erase_one (named sample.value_is_50)
       (map_sharded_t.MapSharded
          ([sample.shard0] ++ sample.shard1 :: [sample.shard2; sample.shard3]) 5)).2
    = 1%Z.
Proof.
  assert (stable (named sample.value_is_50)) as Hst by (by left).
  assert (∀ e, e ∈ map_sharded_t.entries_of [sample.shard0] →
               sample.value_is_50 e = false) as Hno.
  { apply Forall_forall. apply (bool_decide_unpack _). vm_compute. exact I. }
  split; [exact Hst|]. split; [exact Hno|].
  destruct (erase_one_first_match (named sample.value_is_50) [sample.shard0]
              sample.shard1 [sample.shard2; sample.shard3] 5 Hst Hno)
    as (s' & _ & _ & _ & Hret).
  - exists (5%N, 50%N). split; [|reflexivity].
    apply (bool_decide_unpack _). vm_compute. exact I.
  - rewrite Hret; [reflexivity|]. vm_compute. discriminate.
Defined.

Lemma erase_if_each_shard_witness :
  map_sharded_t.shards_ sample.four_shards !! 1 = Some sample.shard1
  ∧ ∃ s', map_sharded_t.shards_
            (map_sharded_t.erase_if (sample.handle_is 50) sample.four_shards).1 !! 1
          = Some s'
      ∧ map_lock_t.entries s' = [(1, 10); (5, 50)]%N.
Proof.
  assert (map_sharded_t.shards_ sample.four_shards !! 1 = Some sample.shard1)
    as Hs by reflexivity.
  split; [exact Hs|].
  destruct (erase_if_each_shard (sample.handle_is 50) sample.four_shards 1
              sample.shard1 Hs) as (s' & Hl & Hent & _).
  exists s'. split; [exact Hl|]. rewrite Hent. reflexivity.
Defined.

Lemma shard_for_each_prefix_witness :
  map_lock_t.entries sample.shard1 ≠ []
  ∧ (map_lock_t.for_each sample.stop_at_once sample.shard1 []).1.2 ≠ [].
Proof.
  assert (map_lock_t.entries sample.shard1 ≠ []) as Hne by discriminate.
  split; [exact Hne|].
  destruct (shard_for_each_prefix sample.stop_at_once sample.shard1 [])
    as (pre' & post & _ & _ & _ & Hvisited).
  exact (Hvisited Hne).
Defined.

Lemma for_each_complete_pass_witness :
  routing.never_stops sample.collect
  ∧ (map_sharded_t.for_each sample.collect sample.four_shards []).2
    = [(4, 40); (1, 10); (5, 50); (2, 20); (3, 30)]%N.
Proof.
  assert (routing.never_stops sample.collect) as Hvis by exact I.
  split; [exact Hvis|].
  rewrite (for_each_complete_pass sample.collect sample.four_shards [] Hvis).
  reflexivity.
Defined.

Lemma for_each_reaches_every_shard_witness :
  map_sharded_t.shards_ sample.four_shards !! 2 = Some sample.shard2
  ∧ (2%N, 20%N) ∈ (map_sharded_t.for_each sample.stop_at_once
                     sample.four_shards []).2.
Proof.
  assert (map_sharded_t.shards_ sample.four_shards !! 2 = Some sample.shard2)
    as Hs by reflexivity.
  split; [exact Hs|].
  assert (map_lock_t.entries sample.shard2 = [(2%N, 20%N)]) as He by reflexivity.
  exact (for_each_reaches_every_shard sample.stop_at_once sample.four_shards
           [] 2 sample.shard2 (2%N, 20%N) [] Hs He).
Defined.

Lemma copy_selects_witness :
  map_sharded_t.copy sample.above_25 sample.four_shards = [40; 50; 30]%N.
Proof.
  destruct (copy_selects sample.above_25 sample.four_shards) as (-> & _ & _).
  reflexivity.
Defined.

Lemma constructed_empty_witness :
  map_sharded_t.find sample.nullptr sample.Hash 3%N
    (map_sharded_t.map_sharded_t 4) = Ok sample.nullptr
  ∧ map_sharded_t.try_emplace sample.Hash 3%N 30%N
      (map_sharded_t.map_sharded_t 0) = UB.
Proof.
  split.
  - destruct (constructed_empty sample.nullptr sample.Hash 4)
      as (_ & _ & _ & _ & _ & Hfind & _).
    destruct (Hfind ltac:(lia) 3%N) as [H _]. exact H.
  - destruct (constructed_empty sample.nullptr sample.Hash 0)
      as (_ & _ & _ & _ & _ & _ & Hub).
    destruct (Hub eq_refl 3%N 30%N) as (_ & H & _). exact H.
Defined.

Lemma try_emplace_adds_one_witness :
  map_sharded_t.try_emplace sample.Hash 6%N 60%N sample.four_shards
  = Ok (sample.with_six, ((6%N, 60%N), true))
  ∧ map_sharded_t.entries sample.with_six
    ≡ₚ (6%N, 60%N) :: map_sharded_t.entries sample.four_shards.
Proof.
  assert (map_sharded_t.try_emplace sample.Hash 6%N 60%N sample.four_shards
          = Ok (sample.with_six, ((6%N, 60%N), true))) as Hte by reflexivity.
  split; [exact Hte|].
  destruct (try_emplace_adds_one sample.Hash _ _ _ _ _ Hte) as (_ & Hperm & _).
  exact Hperm.
Defined.
